(** * Quantum-Programming (Cirq tutorial scripts): circuit folding, zero-noise
      extrapolation, the half adder and the BB84 loop

    The development embeds the Python functions of
    - [Cirq/quantum_error_mitigation.py]: [create_test_circuit],
      [add_noise_to_circuit], [scale_noise], [zero_noise_extrapolation];
    - [Cirq/quantum_addition.py]: [quantum_half_adder], [add_two_bits];
    - [Cirq/quantum_crypto_bb84.py]: the preparation and measurement loop.

    Conventions.
    - A Python [float] is read as a rational ([Q]).  Every scale factor that
      is a binary float with [1 <= s < 2^53] has [s - 1.0] and
      [(s - 1.0) * 2] computed without rounding, so [num_folds] below is the
      number Python computes on such inputs.
    - A [cirq.Circuit] is a mutable Python object: circuits live in a store
      ([heap]) and are passed by reference ([loc]); a [cirq.Moment] and a
      [cirq.Operation] are immutable values.
    - A Python exception is the [Raise] outcome of the monad [M].
    - cirq's simulators are outside the repository: the engine they stand
      for ([Engine]) is modelled from the specification, in exact
      arithmetic. *)

From Stdlib Require Import QArith Qround Qabs Lia.
From stdpp Require Import gmap strings list.

Set Default Proof Using "Type".
Open Scope Z_scope.

(** ** Python outcomes and the store monad *)

Module Py.

(** The exception classes that the embedded code and the modelled engine can
    raise. *)
Inductive exn : Type :=
| TypeError              (* cirq.inverse on a non-invertible value; numpy *)
| LinAlgError            (* numpy.linalg.lstsq *)
| ZeroDivisionError
| KeyError
| IndexError
| ReferenceError         (* a dangling circuit reference: never in Python *)
| InvalidArgument        (* engine, spec section 7 *)
| DimensionError
| QubitIndexError
| UnknownGateError
| InsufficientDataError
| NumericalInstabilityError.

Inductive outcome (A : Type) : Type :=
| Return (a : A)
| Raise (e : exn).
Arguments Return {A} a.
Arguments Raise {A} e.

Definition is_raise {A} (o : outcome A) : bool :=
  match o with Return _ => false | Raise _ => true end.

(** Pure code that may raise. *)
#[export] Instance outcome_ret : MRet outcome := fun A a => Return a.

#[export] Instance outcome_bind : MBind outcome := fun A B k o =>
  match o with
  | Return a => k a
  | Raise e => Raise e
  end.

(** Python's [int(x)] on a float: truncation towards zero. *)
Definition int (x : Q) : Z := Z.quot (Qnum x) (Z.pos (Qden x)).

(** [range(n)] runs [max n 0] times. *)
Definition range_len (n : Z) : nat := Z.to_nat n.

End Py.

Export Py.

(** ** The part of cirq the scripts use

    cirq is a library outside the repository; its circuit container is
    modelled here by its documented behaviour: a circuit is a list of
    moments, [append] places an operation with [InsertStrategy.EARLIEST]
    and keeps a moment whole. *)

Module Cirq.

(** [cirq.LineQubit(x)] and [cirq.NamedQubit(name)]. *)
Inductive Qid : Type :=
| LineQubit (x : Z)
| NamedQubit (name : string).

#[export] Instance Qid_eq_dec : EqDecision Qid.
Proof. solve_decision. Defined.

(** The gates and channels that occur in the three scripts. *)
Inductive Gate : Type :=
| H
| X
| CNOT
| CCNOT
| depolarize (p : Q)
| MeasurementGate (key : string).

(** A [cirq.Operation]: a gate on its ordered qubit operands. *)
Record Operation : Type := on { gate : Gate; qubits : list Qid }.

Definition measure (q : Qid) (key : string) : Operation :=
  on (MeasurementGate key) [q].

(** [isinstance(op.gate, cirq.MeasurementGate)] *)
Definition is_measurement (op : Operation) : bool :=
  match gate op with MeasurementGate _ => true | _ => false end.

Definition measurement_keys (op : Operation) : list string :=
  match gate op with MeasurementGate k => [k] | _ => [] end.

(** A [cirq.Moment] is an immutable tuple of operations; a circuit's content
    is its list of moments. *)
Abbreviation Moment := (list Operation).
Abbreviation Moments := (list Moment).

(** [cirq.inverse(op)], that is [op ** -1].  The four unitary gates are
    their own inverses (cirq returns the gate with exponent -1, which its
    equality identifies with the gate); a noise channel and a measurement
    have no inverse ([__pow__] returns [NotImplemented]) and [cirq.inverse]
    raises [TypeError] ("object of type ... isn't invertible"). *)
Definition inverse (op : Operation) : outcome Operation :=
  match gate op with
  | H | X | CNOT | CCNOT => Return op
  | depolarize _ | MeasurementGate _ => Raise TypeError
  end.

(** [moment.operates_on(op.qubits)] *)
Definition operates_on (m : Moment) (qs : list Qid) : bool :=
  existsb (fun o => existsb (fun q => bool_decide (q ∈ qubits o)) qs) m.

Definition shares_key (m : Moment) (op : Operation) : bool :=
  existsb (fun o => existsb (fun k => bool_decide (k ∈ measurement_keys o))
                      (measurement_keys op)) m.

(** An operation cannot slide past a moment that touches one of its qubits
    or records under one of its measurement keys. *)
Definition blocks (m : Moment) (op : Operation) : bool :=
  operates_on m (qubits op) || shares_key m op.

(** [Circuit.earliest_available_moment(op)]: scan the moments from the
    last one backwards and stop at the first that blocks [op]; the answer
    is the index just after it, or 0.  [scan_back] walks the reversed
    moment list. *)
Fixpoint scan_back (op : Operation) (rev_moments : Moments) : nat :=
  match rev_moments with
  | [] => 0%nat
  | m :: rest =>
      if blocks m op then length rev_moments else scan_back op rest
  end.

Definition earliest_available_moment (ms : Moments) (op : Operation) : nat :=
  scan_back op (rev ms).

(** [circuit.append(op)] with the default [InsertStrategy.EARLIEST]: the
    operation joins the moment found above; a new moment is created at the
    end when that index is past the last moment. *)
Definition append_op (ms : Moments) (op : Operation) : Moments :=
  let p := earliest_available_moment ms op in
  match ms !! p with
  | Some m => <[p := m ++ [op]]> ms
  | None => ms ++ [[op]]
  end.

(** [circuit.append([op1, op2, ...])] *)
Definition append_ops (ms : Moments) (ops : list Operation) : Moments :=
  fold_left append_op ops ms.

(** [circuit.append(moment)]: a moment is kept whole, as a new last
    moment. *)
Definition append_moment (ms : Moments) (m : Moment) : Moments :=
  ms ++ [m].

(** What one [append] call is given. *)
Inductive item : Type :=
| IMoment (m : Moment)
| IOp (op : Operation).

Definition append_item (ms : Moments) (it : item) : Moments :=
  match it with
  | IMoment m => append_moment ms m
  | IOp op => append_op ms op
  end.

(** The circuit obtained from [cirq.Circuit()] by a sequence of [append]
    calls. *)
Definition build (items : list item) : Moments :=
  fold_left append_item items [].

Definition item_ops (it : item) : list Operation :=
  match it with IMoment m => m | IOp op => [op] end.

Definition all_operations (ms : Moments) : list Operation := concat ms.

(** [circuit.all_qubits()], in order of first use. *)
Definition all_qubits (ms : Moments) : list Qid :=
  remove_dups (flat_map qubits (all_operations ms)).

(** *** The store of circuit objects *)

Abbreviation loc := positive.

Abbreviation heap := (gmap loc Moments).

Definition M (A : Type) : Type := heap -> outcome A * heap.

#[export] Instance M_ret : MRet M := fun A a h => (Return a, h).

#[export] Instance M_bind : MBind M := fun A B k c h =>
  match c h with
  | (Return a, h') => k a h'
  | (Raise e, h') => (Raise e, h')
  end.

Definition raise {A} (e : exn) : M A := fun h => (Raise e, h).

Definition lift {A} (o : outcome A) : M A := fun h => (o, h).

(** [cirq.Circuit()] *)
Definition Circuit_new : M loc :=
  fun h => let l := fresh (dom h) in (Return l, <[l := []]> h).

(** Reading the moments of a circuit ([for moment in circuit]); no loop of
    the scripts appends to the circuit it iterates over, so the moments are
    read once. *)
Definition Circuit_moments (c : loc) : M Moments :=
  fun h =>
    match h !! c with
    | Some ms => (Return ms, h)
    | None => (Raise ReferenceError, h)
    end.

(** [circuit.append(...)] mutates the circuit object in place. *)
Definition Circuit_append (c : loc) (it : item) : M unit :=
  fun h =>
    match h !! c with
    | Some ms => (Return tt, <[c := append_item ms it]> h)
    | None => (Raise ReferenceError, h)
    end.

(** [circuit.append([op1, op2, ...])] on a circuit object. *)
Definition Circuit_append_ops (c : loc) (ops : list Operation) : M unit :=
  fun h =>
    match h !! c with
    | Some ms => (Return tt, <[c := append_ops ms ops]> h)
    | None => (Raise ReferenceError, h)
    end.

(** [for x in xs: body(x)] *)
Fixpoint for_each {A} (xs : list A) (body : A -> M unit) : M unit :=
  match xs with
  | [] => mret tt
  | x :: rest => body x;; for_each rest body
  end.

(** [for _ in range(n): body] *)
Fixpoint for_range (n : nat) (body : M unit) : M unit :=
  match n with
  | O => mret tt
  | S k => body;; for_range k body
  end.

End Cirq.

Export Cirq.

(** ** The part of numpy the scripts use *)

Module Numpy.

Definition sumQ (l : list Q) : Q := fold_right Qplus 0%Q l.

Definition dot (x y : list Q) : Q :=
  sumQ (zip_with Qmult x y).

(** [np.polyfit(x, y, deg=1)] in exact arithmetic; the result is
    [(coeffs[0], coeffs[1])], slope first.

    numpy raises [TypeError] for an empty [x] and for [x] and [y] of
    different lengths, then solves the least-squares problem for the
    columns [x] and [1], each divided by its Euclidean norm, with
    [numpy.linalg.lstsq]:
    - when the two columns are independent ([n * sum x^2 <> (sum x)^2],
      that is, [x] holds two different values) the solution is the unique
      least-squares line, given here by the normal equations;
    - when they are not (all of [x] is one value [c]), [lstsq] returns the
      least-squares solution of minimum norm, [coeffs = (mean y / (2 c),
      mean y / 2)], and [polyfit] only warns ([RankWarning]);
    - when moreover [c = 0] the scaling divides by zero and [lstsq] raises
      [LinAlgError]. *)
Definition polyfit1 (x y : list Q) : outcome (Q * Q) :=
  if bool_decide (length x = 0%nat) then Raise TypeError
  else if negb (bool_decide (length x = length y)) then Raise TypeError
  else
    let n := inject_Z (Z.of_nat (length x)) in
    let sx := sumQ x in
    let sy := sumQ y in
    let sxx := dot x x in
    let sxy := dot x y in
    let d := (n * sxx - sx * sx)%Q in
    if Qeq_bool d 0 then
      if Qeq_bool sxx 0 then Raise LinAlgError
      else Return ((sy / (2 * sx))%Q, (sy / (2 * n))%Q)
    else
      Return (((n * sxy - sx * sy) / d)%Q, ((sy * sxx - sx * sxy) / d)%Q).

(** The sum of squared vertical residuals of the line [y = m x + b]. *)
Definition sse (x y : list Q) (m b : Q) : Q :=
  sumQ (zip_with (fun xi yi => (yi - (m * xi + b)) * (yi - (m * xi + b)))%Q
          x y).

(** [n * sum x^2 - (sum x)^2], the determinant of the normal equations. *)
Definition fit_det (x : list Q) : Q :=
  (inject_Z (Z.of_nat (length x)) * dot x x - sumQ x * sumQ x)%Q.

Definition sq_dists (a : Q) (x : list Q) : Q :=
  sumQ (map (fun xi => (a - xi) * (a - xi))%Q x).

End Numpy.

Export Numpy.

(** ** The simulation engine

    The scripts hand their circuits to cirq's simulators, which are not part
    of the repository; the specification describes the engine they stand
    for.  Arithmetic is exact: a register state is a density matrix with
    rational entries, which the real gates of the catalogue preserve (the
    Hadamard gate is applied as [[1 1; 1 -1]] on both sides and the result
    halved). *)

Module Engine.

Abbreviation Vector := (list Q).
Abbreviation Matrix := (list (list Q)).

Definition tabulate {A} (n : nat) (f : nat -> A) : list A := map f (seq 0 n).

Definition vget (v : Vector) (i : nat) : Q := nth i v 0%Q.

(** Modelled from the spec: section 4.1, the register of [n] qubits has
    the basis states [0 .. 2^n - 1]; bit [k] of the basis index [i] is the
    value of qubit [k]. *)
Definition bit (k i : nat) : bool := Nat.testbit i k.
Definition flip (k i : nat) : nat := Nat.lxor i (2 ^ k).

(** Modelled from the spec: section 4.2, the unitary gates as linear maps on
    amplitude vectors.  Pauli-X is the bit flip; CNOT flips the target iff
    the control is 1; Toffoli flips the target iff both controls are 1;
    [vec_H] is the Hadamard matrix times the square root of 2; [vec_Z] is
    Pauli-Z. *)
Definition vec_X (k : nat) (v : Vector) : Vector :=
  tabulate (length v) (fun i => vget v (flip k i)).

Definition vec_Z (k : nat) (v : Vector) : Vector :=
  tabulate (length v) (fun i => if bit k i then (- vget v i)%Q else vget v i).

Definition vec_H (k : nat) (v : Vector) : Vector :=
  tabulate (length v) (fun i =>
    if bit k i then (vget v (flip k i) - vget v i)%Q
    else (vget v i + vget v (flip k i))%Q).

Definition vec_CNOT (c t : nat) (v : Vector) : Vector :=
  tabulate (length v) (fun i => if bit c i then vget v (flip t i) else vget v i).

Definition vec_CCNOT (c1 c2 t : nat) (v : Vector) : Vector :=
  tabulate (length v) (fun i =>
    if bit c1 i && bit c2 i then vget v (flip t i) else vget v i).

Definition transpose (m : Matrix) : Matrix :=
  tabulate (length m) (fun j => map (fun row => vget row j) m).

(** Modelled from the spec: section 4.1, [apply_unitary] on a density
    matrix: [U rho U^T] for a real linear map [U]. *)
Definition conjugate (U : Vector -> Vector) (rho : Matrix) : Matrix :=
  transpose (map U (transpose (map U rho))).

Definition mscale (q : Q) (rho : Matrix) : Matrix := map (map (Qmult q)) rho.
Definition madd (a b : Matrix) : Matrix := zip_with (zip_with Qplus) a b.
Definition mred (rho : Matrix) : Matrix := map (map Qred) rho.

(** Modelled from the spec: section 4.1, [initialize(n)] is the all-zero
    basis state. *)
Definition initialize (n : nat) : Matrix :=
  tabulate (2 ^ n) (fun i => tabulate (2 ^ n) (fun j =>
    if (Nat.eqb i 0 && Nat.eqb j 0)%bool then 1%Q else 0%Q)).

(** Modelled from the spec: section 4.2, the depolarizing channel with
    probability [p]: identity with probability [1 - p], otherwise X, Y or Z
    with probability [p / 3] each ([Y rho Y^dagger = XZ rho ZX]). *)
Definition depolarizing (p : Q) (k : nat) (rho : Matrix) : Matrix :=
  madd (mscale (1 - p) rho)
    (mscale (p / 3)
       (madd (conjugate (vec_X k) rho)
          (madd (conjugate (fun v => vec_X k (vec_Z k v)) rho)
             (conjugate (vec_Z k) rho)))).

(** Modelled from the spec: sections 4.1 and 4.4, routing of one gate or
    channel to the register; [DimensionError] when the operand count does
    not match the gate or an operand is repeated. *)
Definition apply_gate (g : Gate) (ks : list nat) : outcome (Matrix -> Matrix) :=
  if negb (bool_decide (NoDup ks)) then Raise DimensionError
  else
    match g, ks with
    | H, [k] => Return (fun rho => mred (mscale (1 # 2) (conjugate (vec_H k) rho)))
    | X, [k] => Return (fun rho => mred (conjugate (vec_X k) rho))
    | CNOT, [c; t] => Return (fun rho => mred (conjugate (vec_CNOT c t) rho))
    | CCNOT, [c1; c2; t] =>
        Return (fun rho => mred (conjugate (vec_CCNOT c1 c2 t) rho))
    | depolarize p, [k] => Return (fun rho => mred (depolarizing p k rho))
    | _, _ => Raise DimensionError
    end.

(** Modelled from the spec: section 4.4, what the simulator does with the
    register, one step at a time (APPLY a gate or channel, or measure one
    qubit). *)
Inductive step : Type :=
| SUnitary (f : Matrix -> Matrix)
| SMeasure (key : string) (k : nat).

(** Modelled from the spec: section 4.4, [QubitIndexError] for a qubit that
    is not among the circuit's qubits. *)
Definition qubit_index (qs : list Qid) (q : Qid) : outcome nat :=
  match list_find (fun q' => q' = q) qs with
  | Some (i, _) => Return i
  | None => Raise QubitIndexError
  end.

Fixpoint qubit_indices (qs : list Qid) (operands : list Qid)
    : outcome (list nat) :=
  match operands with
  | [] => Return []
  | q :: rest =>
      k ← qubit_index qs q;
      ks ← qubit_indices qs rest;
      mret (k :: ks)
  end.

Definition compile_operation (qs : list Qid) (op : Operation)
    : outcome (list step) :=
  ks ← qubit_indices qs (qubits op);
  match gate op with
  | MeasurementGate key => Return (map (SMeasure key) ks)
  | g => f ← apply_gate g ks; mret [SUnitary f]
  end.

Fixpoint compile_operations (qs : list Qid) (ops : list Operation)
    : outcome (list step) :=
  match ops with
  | [] => Return []
  | op :: rest =>
      s1 ← compile_operation qs op;
      s2 ← compile_operations qs rest;
      mret (s1 ++ s2)
  end.

(** Modelled from the spec: section 4.4, the operations are routed moment
    by moment, in order. *)
Definition compile (circuit : Moments) : outcome (list step) :=
  compile_operations (all_qubits circuit) (all_operations circuit).

(** Modelled from the spec: section 4.1, the probability that qubit [k]
    reads [b]: the part of the diagonal whose index has bit [k] equal to
    [b]. *)
Definition probability (k : nat) (b : bool) (rho : Matrix) : Q :=
  Qred (sumQ (imap (fun i row => if bool_decide (bit k i = b)
                                 then vget row i else 0%Q) rho)).

(** Modelled from the spec: section 4.1, the post-measurement state after
    qubit [k] was read as [b], an outcome of probability [p]: projected and
    renormalised. *)
Definition collapse (k : nat) (b : bool) (p : Q) (rho : Matrix) : Matrix :=
  imap (fun i row =>
    imap (fun j x =>
      if bool_decide (bit k i = b) && bool_decide (bit k j = b)
      then Qred (x / p) else 0%Q) row) rho.

(** Modelled from the spec: section 4.1, [sample] draws the outcome of one
    qubit with the draw [u] from [[0, 1)]; an outcome of probability zero is
    never drawn; [NumericalInstabilityError] when the two probabilities do not
    add up to 1. *)
Definition sample (k : nat) (u : Q) (rho : Matrix) : outcome (bool * Matrix) :=
  let p0 := probability k false rho in
  let p1 := probability k true rho in
  if negb (Qeq_bool (p0 + p1) 1) then Raise NumericalInstabilityError
  else
    let b := if Qeq_bool p1 0 then false
             else if Qeq_bool p0 0 then true
             else Qle_bool p0 u in
    Return (b, collapse k b (if b then p1 else p0) rho).

(** The outcomes of one repetition: measurement key to outcome tuple. *)
Abbreviation Record := (gmap string (list bool)).

(** The results of a run: measurement key to the sequence of outcome tuples,
    one per repetition. *)
Abbreviation Results := (gmap string (list (list bool))).

Definition record_bit (key : string) (b : bool) (rec : Record) : Record :=
  <[key := default [] (rec !! key) ++ [b]]> rec.

(** Modelled from the spec: section 4.4, one repetition from the state
    [rho]; [i] counts the draws taken from the random source [rng]. *)
Fixpoint run_steps (steps : list step) (rng : nat -> Q)
    (rho : Matrix) (i : nat) (rec : Record) : outcome (Record * nat) :=
  match steps with
  | [] => Return (rec, i)
  | SUnitary f :: rest => run_steps rest rng (f rho) i rec
  | SMeasure key k :: rest =>
      '(b, rho') ← sample k (rng i) rho;
      run_steps rest rng rho' (S i) (record_bit key b rec)
  end.

(** Modelled from the spec: section 4.4, COLLECT appends this repetition's
    outcomes to the results. *)
Definition collect (res : Results) (rec : Record) : Results :=
  merge (fun seq tuple =>
           match tuple with
           | Some t => Some (default [] seq ++ [t])
           | None => seq
           end) res rec.

(** Modelled from the spec: section 4.4, the repetition loop: each
    repetition replays the circuit from INIT. *)
Fixpoint repeat_runs (n : nat) (steps : list step) (nq : nat) (rng : nat -> Q)
    (i : nat) (res : Results) : outcome Results :=
  match n with
  | O => Return res
  | S n' =>
      '(rec, i') ← run_steps steps rng (initialize nq) i ∅;
      repeat_runs n' steps nq rng i' (collect res rec)
  end.

(** Modelled from the spec: section 4.4, [Simulator.run(circuit,
    repetitions)] with the simulator's random source [rng]:
    [InvalidArgument] unless [repetitions >= 1]; then every repetition is an
    independent replay from the all-zero state. *)
Definition run (circuit : Moments) (repetitions : Z) (rng : nat -> Q)
    : outcome Results :=
  if repetitions <? 1 then Raise InvalidArgument
  else
    steps ← compile circuit;
    repeat_runs (Z.to_nat repetitions) steps (length (all_qubits circuit))
      rng 0%nat ∅.

(** Modelled from the spec: section 6, every sequence of measurement
    outcomes that has non-zero probability, with its probability. *)
Fixpoint branches (steps : list step) (rho : Matrix) (bits : list bool)
    (w : Q) : list (list bool * Q) :=
  match steps with
  | [] => [(bits, Qred w)]
  | SUnitary f :: rest => branches rest (f rho) bits w
  | SMeasure _ k :: rest =>
      let p0 := probability k false rho in
      let p1 := probability k true rho in
      (if Qeq_bool p0 0 then []
       else branches rest (collapse k false p0 rho) (bits ++ [false]) (w * p0))
      ++
      (if Qeq_bool p1 0 then []
       else branches rest (collapse k true p1 rho) (bits ++ [true]) (w * p1))
  end.

(** Modelled from the spec: section 6, [Simulator.exact_distribution(circuit)]:
    the mapping from outcome tuple (the measured bits in circuit order) to
    probability; a tuple of probability zero is not in the mapping. *)
Definition exact_distribution (circuit : Moments)
    : outcome (gmap (list bool) Q) :=
  steps ← compile circuit;
  mret (list_to_map
          (branches steps (initialize (length (all_qubits circuit))) [] 1)).

(** The probability mass of one outcome tuple. *)
Definition mass (d : gmap (list bool) Q) (t : list bool) : Q :=
  default 0%Q (d !! t).

End Engine.

Export Engine.

(** ** Cirq/quantum_error_mitigation.py *)

Module ErrorMitigation.

(** [create_test_circuit(qubits)], with [qubits[0]] and [qubits[1]]. *)
Definition create_test_circuit (q0 q1 : Qid) : M loc :=
  circuit ← Circuit_new;
  Circuit_append_ops circuit [on H [q0]; on CNOT [q0; q1]];;
  Circuit_append_ops circuit [measure q0 "q0"; measure q1 "q1"];;
  mret circuit.

(** [add_noise_to_circuit(circuit, noise_level)] *)
Definition add_noise_to_circuit (circuit : loc) (noise_level : Q) : M loc :=
  noisy_circuit ← Circuit_new;
  moments ← Circuit_moments circuit;
  for_each moments (fun moment =>
    Circuit_append noisy_circuit (IMoment moment);;
    for_each moment (fun op =>
      if negb (is_measurement op) then
        for_each (qubits op) (fun qubit =>
          Circuit_append noisy_circuit
            (IOp (on (depolarize noise_level) [qubit])))
      else mret tt));;
  mret noisy_circuit.

(** [any(isinstance(op.gate, cirq.MeasurementGate) for op in moment)] *)
Definition has_measurement (moment : Moment) : bool :=
  existsb is_measurement moment.

(** [num_folds = int((scale_factor - 1.0) * 2)] *)
Definition num_folds (scale_factor : Q) : Z :=
  int ((scale_factor - 1) * 2)%Q.

(** The body of [for op in moment] inside the folding loop. *)
Definition fold_op (scaled_circuit : loc) (op : Operation) : M unit :=
  Circuit_append scaled_circuit (IOp op);;
  inv ← lift (inverse op);
  Circuit_append scaled_circuit (IOp inv).

(** The body of [for moment in circuit]. *)
Definition scale_moment (scaled_circuit : loc) (scale_factor : Q)
    (moment : Moment) : M unit :=
  if negb (has_measurement moment) then
    Circuit_append scaled_circuit (IMoment moment);;
    for_range (range_len (num_folds scale_factor))
      (for_each moment (fold_op scaled_circuit))
  else
    Circuit_append scaled_circuit (IMoment moment).

(** [scale_noise(circuit, scale_factor)].  The unused local
    [qubits = sorted(circuit.all_qubits())] is left out. *)
Definition scale_noise (circuit : loc) (scale_factor : Q) : M loc :=
  if Qeq_bool scale_factor 1 then mret circuit
  else
    scaled_circuit ← Circuit_new;
    moments ← Circuit_moments circuit;
    for_each moments (scale_moment scaled_circuit scale_factor);;
    mret scaled_circuit.

(** [zero_noise_extrapolation(noise_scales, expectation_values)] *)
Definition zero_noise_extrapolation (noise_scales expectation_values : list Q)
    : outcome Q :=
  coeffs ← polyfit1 noise_scales expectation_values;
  let zero_noise_value := coeffs.2 in   (* coeffs[1], the y-intercept *)
  mret zero_noise_value.

End ErrorMitigation.

Export ErrorMitigation.

(** ** Cirq/quantum_addition.py

    In this script and in the BB84 loop every circuit is local to one call
    and is never aliased: the circuit variables are threaded as values. *)

Module Addition.

(** [result.measurements[key][i][j]] as an integer. *)
Definition measurement (result : Results) (key : string) (i j : nat)
    : outcome Z :=
  match result !! key with
  | None => Raise KeyError
  | Some rows =>
      match rows !! i with
      | None => Raise IndexError
      | Some row =>
          match row !! j with
          | None => Raise IndexError
          | Some b => Return (Z.b2z b)
          end
      end
  end.

(** [quantum_half_adder()] *)
Definition quantum_half_adder : Moments * list Qid :=
  let a := NamedQubit "a" in
  let b := NamedQubit "b" in
  let sum_qubit := NamedQubit "sum" in
  let carry := NamedQubit "carry" in
  let circuit : Moments := [] in
  let circuit := append_op circuit (on CNOT [a; sum_qubit]) in
  let circuit := append_op circuit (on CNOT [b; sum_qubit]) in
  let circuit := append_op circuit (on CCNOT [a; b; carry]) in
  let circuit := append_op circuit (measure sum_qubit "sum") in
  let circuit := append_op circuit (measure carry "carry") in
  (circuit, [a; b; sum_qubit; carry]).

(** [full_circuit] of [add_two_bits(bit_a, bit_b)]: the X gates that
    prepare the inputs, then the half adder ([init_circuit + circuit]). *)
Definition full_circuit (bit_a bit_b : Z) : Moments :=
  let '(circuit, qubits) := quantum_half_adder in
  let a := nth 0 qubits (NamedQubit "") in
  let b := nth 1 qubits (NamedQubit "") in
  let init_circuit : Moments := [] in
  let init_circuit :=
    if bit_a =? 1 then append_op init_circuit (on X [a]) else init_circuit in
  let init_circuit :=
    if bit_b =? 1 then append_op init_circuit (on X [b]) else init_circuit in
  init_circuit ++ circuit.

(** [add_two_bits(bit_a, bit_b)]; [rng] is the random source of the
    [cirq.Simulator()] the call creates. *)
Definition add_two_bits (bit_a bit_b : Z) (rng : nat -> Q) : outcome (Z * Z) :=
  result ← run (full_circuit bit_a bit_b) 1 rng;
  sum_result ← measurement result "sum" 0 0;
  carry_result ← measurement result "carry" 0 0;
  mret (sum_result, carry_result).

(** Statement side: X gates prepare the two controls, the target starts at
    0, then CCNOT, then the target is measured. *)
Definition toffoli_circuit (x y : bool) : Moments :=
  let c1 := NamedQubit "c1" in
  let c2 := NamedQubit "c2" in
  let t := NamedQubit "t" in
  build ((if x then [IOp (on X [c1])] else []) ++
         (if y then [IOp (on X [c2])] else []) ++
         [IOp (on CCNOT [c1; c2; t]); IOp (measure t "t")]).

End Addition.

Export Addition.

(** ** Cirq/quantum_crypto_bb84.py *)

Module BB84.

Definition num_bits : nat := 8.

(** [arr[i]] *)
Definition index (arr : list Z) (i : nat) : outcome Z :=
  match arr !! i with
  | Some v => Return v
  | None => Raise IndexError
  end.

(** The circuit of one round: Alice prepares her bit in her basis, Bob
    turns to his basis and measures. *)
Definition round_circuit (alice_bit alice_basis bob_basis : Z) : Moments :=
  let qubit := LineQubit 0 in
  let circuit : Moments := [] in
  let circuit :=
    if alice_basis =? 0 then
      if alice_bit =? 1 then append_op circuit (on X [qubit]) else circuit
    else
      let circuit :=
        if alice_bit =? 1 then append_op circuit (on X [qubit]) else circuit in
      append_op circuit (on H [qubit]) in
  let circuit :=
    if bob_basis =? 1 then append_op circuit (on H [qubit]) else circuit in
  append_op circuit (measure qubit "m").

(** [measured_bit] of one round; [rng] is the random source of the round's
    [cirq.Simulator()]. *)
Definition measured_bit (alice_bit alice_basis bob_basis : Z)
    (rng : nat -> Q) : outcome Z :=
  result ← run (round_circuit alice_bit alice_basis bob_basis) 1 rng;
  measurement result "m" 0 0.

(** The body of [for i in range(num_bits)], over the rounds [rounds]; the
    three arrays are the results of [np.random.randint(2, size=num_bits)]
    and [rngs i] is the random source of round [i]. *)
Fixpoint bb84_loop (rounds : list nat)
    (alice_bits alice_bases bob_bases : list Z) (rngs : nat -> nat -> Q)
    (key : list Z) : outcome (list Z) :=
  match rounds with
  | [] => Return key
  | i :: rest =>
      alice_basis ← index alice_bases i;
      alice_bit ← index alice_bits i;
      bob_basis ← index bob_bases i;
      bit ← measured_bit alice_bit alice_basis bob_basis (rngs i);
      let key := if alice_basis =? bob_basis then key ++ [bit] else key in
      bb84_loop rest alice_bits alice_bases bob_bases rngs key
  end.

Definition bb84 (alice_bits alice_bases bob_bases : list Z)
    (rngs : nat -> nat -> Q) : outcome (list Z) :=
  bb84_loop (seq 0 num_bits) alice_bits alice_bases bob_bases rngs [].

(** Alice's bits of the rounds in which the two bases agree. *)
Definition sifted (rounds : list nat)
    (alice_bits alice_bases bob_bases : list Z) : list Z :=
  flat_map (fun i =>
    match alice_bits !! i, alice_bases !! i, bob_bases !! i with
    | Some bit, Some ba, Some bb => if ba =? bb then [bit] else []
    | _, _, _ => []
    end) rounds.

Definition is_bit (z : Z) : Prop := z = 0 \/ z = 1.

(** The arrays of one run of the script, for illustration. *)
Definition sample_alice_bits : list Z := [1; 0; 1; 1; 0; 0; 1; 0].
Definition sample_alice_bases : list Z := [0; 1; 1; 0; 0; 1; 0; 1].
Definition sample_bob_bases : list Z := [0; 0; 1; 1; 0; 1; 1; 1].
Definition sample_rngs : nat -> nat -> Q := fun _ _ => (1 # 3)%Q.

End BB84.

Export BB84.

(** ** Statement-side definitions for the folding properties *)

Module FoldSpec.

(** [op] has an inverse: [cirq.inverse(op)] returns [i]. *)
Definition invertible (op : Operation) : Prop :=
  exists i, inverse op = Return i.

(** The operation [cirq.inverse] returns, for an invertible operation. *)
Definition inverse_of (op : Operation) : Operation :=
  match inverse op with
  | Return i => i
  | Raise _ => op
  end.

(** Every operation that the folding loop inverts has an inverse. *)
Definition foldable (ms : Moments) : Prop :=
  Forall (fun m => has_measurement m = false -> Forall invertible m) ms.

(** One repetition: each operation of the moment followed immediately by
    its inverse. *)
Definition folded_pairs (m : Moment) : list item :=
  flat_map (fun op => [IOp op; IOp (inverse_of op)]) m.

(** [floor((s - 1) * 2)] *)
Definition floor_folds (s : Q) : nat := Z.to_nat (Qfloor ((s - 1) * 2)%Q).

(** What is emitted for one moment of the input. *)
Definition emitted_for (s : Q) (m : Moment) : list item :=
  if has_measurement m then [IMoment m]
  else IMoment m :: concat (replicate (floor_folds s) (folded_pairs m)).

(** What is emitted for the whole circuit, in moment order. *)
Definition emitted (s : Q) (ms : Moments) : list item :=
  flat_map (emitted_for s) ms.

Definition items_ops (its : list item) : list Operation :=
  flat_map item_ops its.

(** The number of operations in a circuit. *)
Definition count_ops (ms : Moments) : nat := length (all_operations ms).

(** cirq's invariant on a moment: its operations act on pairwise disjoint
    qubits, and each acts on at least one. *)
Definition moment_ok (m : Moment) : Prop :=
  NoDup (flat_map qubits m) /\ Forall (fun op => qubits op <> []) m.

(** The moments that folding makes of one moment [m]: [m], then
    [floor_folds s] times [m] again and the moment of its inverses. *)
Definition folded_moments (s : Q) (m : Moment) : Moments :=
  if has_measurement m then [m]
  else
    match m with
    | [] => [m]
    | _ => m :: concat (replicate (floor_folds s) [m; map inverse_of m])
    end.

(** The moment [L] stops every operation of [m], and its inverse, from
    sliding past. *)
Definition covers (L m : Moment) : Prop :=
  Forall (fun o => blocks L o = true /\ blocks L (inverse_of o) = true) m.

(** A computation that only appends [its] to the circuit object [r]. *)
Definition appends (c : M unit) (r : loc) (its : list item) : Prop :=
  forall (h : heap) cur, h !! r = Some cur ->
    c h = (Return tt, <[r := fold_left append_item its cur]> h).

(** A computation that leaves every circuit object other than [r]
    untouched, whether it returns or raises. *)
Definition touches_only {A} (c : M A) (r : loc) : Prop :=
  forall (h : heap) l, l <> r -> (c h).2 !! l = h !! l.

(** The folding law as the specification states it, for the circuit object
    [c] of the store [h]: the call returns a circuit that holds what
    [emitted] lists. *)
Definition fold_emits (h : heap) (c : loc) (s : Q) : Prop :=
  exists ms r h',
    h !! c = Some ms /\ scale_noise c s h = (Return r, h') /\
    h' !! r = Some (build (emitted s ms)).

(** The operation-count law of one moment [m] and the block [b] of items
    emitted for it: as the code has it ... *)
Definition fold_block (s : Q) (m : Moment) (b : list item) : Prop :=
  if has_measurement m then b = [IMoment m]
  else
    length (items_ops b) = (length m * (1 + 2 * floor_folds s))%nat /\
    ((s < 3 # 2)%Q -> length (items_ops b) = length m) /\
    ((3 # 2 <= s)%Q -> m <> [] -> (length m < length (items_ops b))%nat).

(** ... and as the specification states it: a strict increase unless the
    scale factor is 1.0. *)
Definition fold_block_stated (s : Q) (m : Moment) (b : list item) : Prop :=
  if has_measurement m then b = [IMoment m]
  else if Qeq_bool s 1 then length (items_ops b) = length m
  else (length m < length (items_ops b))%nat.

Definition fold_counts_stated (h : heap) (c : loc) (s : Q) : Prop :=
  exists ms r h' blocks,
    h !! c = Some ms /\ scale_noise c s h = (Return r, h') /\
    h' !! r = Some (build (concat blocks)) /\
    Forall2 (fold_block_stated s) ms blocks.

(** The input check as the specification states it. *)
Definition zne_rejects (noise_scales expectation_values : list Q) : Prop :=
  zero_noise_extrapolation noise_scales expectation_values
  = Raise InsufficientDataError.

(** [xs] holds two different values. *)
Definition two_distinct (xs : list Q) : Prop :=
  exists i j xi xj, xs !! i = Some xi /\ xs !! j = Some xj /\ ~ (xi == xj)%Q.

(** The frame law as the specification states it: the input keeps its
    moments and the result is another object than the input. *)
Definition fold_fresh_result (h : heap) (c : loc) (s : Q) : Prop :=
  forall o h', scale_noise c s h = (o, h') ->
    h' !! c = h !! c /\ forall r, o = Return r -> r <> c.

(** *** The circuits of the script's [main] *)

Definition q0 : Qid := LineQubit 0.
Definition q1 : Qid := LineQubit 1.

(** [circuit = create_test_circuit(qubits)] in an empty store. *)
Definition bell_store : outcome loc * heap := create_test_circuit q0 q1 ∅.

Definition bell_loc : loc := 1%positive.

Definition bell_moments : Moments :=
  [[on H [q0]]; [on CNOT [q0; q1]]; [measure q0 "q0"; measure q1 "q1"]].

(** [noisy_circuit = add_noise_to_circuit(circuit, noise_level=0.05)] *)
Definition noisy_store : outcome loc * heap :=
  (circuit ← create_test_circuit q0 q1;
   add_noise_to_circuit circuit (1 # 20)) ∅.

Definition noisy_loc : loc := 2%positive.

End FoldSpec.

Export FoldSpec.

(** ** Cirq/quantum_error_mitigation.py: running and measuring

    [run_circuit_multiple_scales] and [measure_error_rate] each create a
    cirq simulator and read its results with numpy.  The simulator and
    numpy's comparison of arrays of different shapes are taken as
    parameters. *)

Module Estimator.

(** A cirq simulator object: [simulator k moments repetitions] is what the
    [k]-th call [simulator.run(circuit, repetitions=repetitions)] returns or
    raises, for a circuit with these moments. *)
Abbreviation Simulator := (nat -> Moments -> Z -> outcome Results).

(** A measurement array ([result.measurements[key]], of shape repetitions x
    qubits) is the list of its rows. *)
Abbreviation Array := (list (list bool)).

(** The [np.float64] values that an integer count divided by an integer can
    be. *)
Inductive npfloat : Type :=
| Finite (q : Q)
| Infinity
| NaN.

(** [result.measurements[key]] *)
Definition measurements (result : Results) (key : string) : outcome Array :=
  match result !! key with
  | Some a => Return a
  | None => Raise KeyError
  end.

(** [np.sum(a == b)] for two arrays of the same shape: the number of
    positions at which they agree. *)
Definition count_equal (a b : Array) : nat :=
  length (filter (fun e : bool => e = true)
            (concat (zip_with (zip_with Bool.eqb) a b))).

(** [np.sum(a == b)]; [np_other] is numpy's answer for arrays of different
    shapes (broadcasting, or a shape error). *)
Definition np_sum_equal (np_other : Array -> Array -> outcome nat)
    (a b : Array) : outcome nat :=
  if bool_decide (map length a = map length b)
  then Return (count_equal a b)
  else np_other a b.

(** [count / repetitions] for a numpy integer [count >= 0]: numpy divides by
    zero without raising (it warns) and gives [nan] for 0/0 and [inf]
    otherwise. *)
Definition np_divide (count : nat) (repetitions : Z) : npfloat :=
  if repetitions =? 0 then
    if Nat.eqb count 0 then NaN else Infinity
  else Finite (inject_Z (Z.of_nat count) / inject_Z repetitions)%Q.

(** The body of [for scale in noise_scales]; [k] counts the calls of
    [simulator.run] made so far. *)
Fixpoint scales_loop (simulator : Simulator)
    (np_other : Array -> Array -> outcome nat) (circuit : loc)
    (repetitions : Z) (k : nat) (noise_scales : list Q)
    (expectation_values : list npfloat) : M (list npfloat) :=
  match noise_scales with
  | [] => mret expectation_values
  | scale :: rest =>
      scaled_circuit ← scale_noise circuit scale;
      moments ← Circuit_moments scaled_circuit;
      result ← lift (simulator k moments repetitions);
      q0_results ← lift (measurements result "q0");
      q1_results ← lift (measurements result "q1");
      agree ← lift (np_sum_equal np_other q0_results q1_results);
      let correlated := np_divide agree repetitions in
      scales_loop simulator np_other circuit repetitions (S k) rest
        (expectation_values ++ [correlated])
  end.

(** [run_circuit_multiple_scales(circuit, noise_scales, repetitions)] with
    the [cirq.DensityMatrixSimulator()] it creates. *)
Definition run_circuit_multiple_scales (simulator : Simulator)
    (np_other : Array -> Array -> outcome nat) (circuit : loc)
    (noise_scales : list Q) (repetitions : Z) : M (list npfloat) :=
  scales_loop simulator np_other circuit repetitions 0 noise_scales [].

(** [array.flatten()] *)
Definition flatten (a : Array) : list bool := concat a.

(** The loop [for q0, q1 in zip(q0_results, q1_results)] that counts the
    outcomes outside [expected_outcomes]. *)
Fixpoint count_errors (pairs : list (bool * bool))
    (expected_outcomes : list (Z * Z)) (errors : Z) : Z :=
  match pairs with
  | [] => errors
  | (q0, q1) :: rest =>
      let outcome := (Z.b2z q0, Z.b2z q1) in
      let errors :=
        if bool_decide (outcome ∈ expected_outcomes) then errors
        else errors + 1 in
      count_errors rest expected_outcomes errors
  end.

(** [measure_error_rate(circuit, expected_outcomes, repetitions)] with the
    [cirq.DensityMatrixSimulator()] it creates; [errors / repetitions] is a
    division of Python integers. *)
Definition measure_error_rate (simulator : Simulator) (circuit : loc)
    (expected_outcomes : list (Z * Z)) (repetitions : Z) : M Q :=
  moments ← Circuit_moments circuit;
  result ← lift (simulator 0%nat moments repetitions);
  q0_array ← lift (measurements result "q0");
  let q0_results := flatten q0_array in
  q1_array ← lift (measurements result "q1");
  let q1_results := flatten q1_array in
  let errors := count_errors (zip q0_results q1_results) expected_outcomes 0 in
  if repetitions =? 0 then raise ZeroDivisionError
  else mret (inject_Z errors / inject_Z repetitions)%Q.

End Estimator.

Export Estimator.

(** ** Statement-side definitions for the further properties *)

Module Checks.

(** [cirq.inverse(op)] returns. *)
Definition invertibleb (op : Operation) : bool := negb (is_raise (inverse op)).

(** Every operation of every measurement-free moment has an inverse. *)
Definition foldableb (ms : Moments) : bool :=
  forallb (fun m => has_measurement m || forallb invertibleb m) ms.

(** What the folding loop appends for one moment, with the repetition count
    as the code computes it. *)
Definition emitted_code (s : Q) (m : Moment) : list item :=
  if has_measurement m then [IMoment m]
  else IMoment m :: concat (replicate (range_len (num_folds s)) (folded_pairs m)).

(** The depolarizing channels that [add_noise_to_circuit] appends after a
    moment: one per qubit of each operation that is not a measurement. *)
Definition noise_ops (noise_level : Q) (m : Moment) : list Operation :=
  flat_map (fun op =>
    if is_measurement op then []
    else map (fun q => on (depolarize noise_level) [q]) (qubits op)) m.

(** What [add_noise_to_circuit] appends for one moment. *)
Definition noise_emitted (noise_level : Q) (m : Moment) : list item :=
  IMoment m :: map IOp (noise_ops noise_level m).

(** The moments that [add_noise_to_circuit] makes of one moment. *)
Definition noisy_moments (noise_level : Q) (m : Moment) : Moments :=
  match noise_ops noise_level m with
  | [] => [m]
  | noise => [m; noise]
  end.

(** The expectation value of one turn of the loop of
    [run_circuit_multiple_scales], from the outcome [o] of [scale_noise] and
    the store [h1] it leaves. *)
Definition iteration_value (simulator : Simulator)
    (np_other : Array -> Array -> outcome nat) (repetitions : Z) (k : nat)
    (o : outcome loc) (h1 : heap) : outcome npfloat :=
  scaled_circuit ← o;
  moments ← match h1 !! scaled_circuit with
            | Some ms => Return ms
            | None => Raise ReferenceError
            end;
  result ← simulator k moments repetitions;
  q0_results ← measurements result "q0";
  q1_results ← measurements result "q1";
  agree ← np_sum_equal np_other q0_results q1_results;
  mret (np_divide agree repetitions).

(** The outcome [(q0, q1)] is one of the expected ones. *)
Definition expected (expected_outcomes : list (Z * Z)) (pr : bool * bool)
    : Prop :=
  (Z.b2z pr.1, Z.b2z pr.2) ∈ expected_outcomes.

(** A simulator that answers with [repetitions] rows of one bit under each
    of the keys [q0] and [q1], as cirq does for a circuit that measures one
    qubit under each key. *)
Definition one_bit_rows (simulator : Simulator) (repetitions : Z) : Prop :=
  forall k ms result, simulator k ms repetitions = Return result ->
    exists a b, result !! "q0" = Some a /\ result !! "q1" = Some b /\
      length a = Z.to_nat repetitions /\ length b = Z.to_nat repetitions /\
      Forall (fun row => length row = 1%nat) a /\
      Forall (fun row => length row = 1%nat) b.

(** The simulator of the engine, with one random source per call. *)
Definition engine_simulator (rngs : nat -> nat -> Q) : Simulator :=
  fun k ms repetitions => run ms repetitions (rngs k).

(** A stand-in simulator that reads 1 on both qubits in every repetition. *)
Definition ones_simulator : Simulator :=
  fun _ _ repetitions =>
    Return {[ "q0" := replicate (Z.to_nat repetitions) [true];
              "q1" := replicate (Z.to_nat repetitions) [true] ]}.

(** numpy before 1.25 on arrays of different shapes: the comparison is
    [False]. *)
Definition np_other_false : Array -> Array -> outcome nat :=
  fun _ _ => Return 0%nat.

End Checks.

Export Checks.

(** * Proofs *)

(** ** Truncation and floor *)

Lemma int_nonneg_floor (x : Q) : (0 <= x)%Q -> int x = Qfloor x.
Proof.
  destruct x as [n d]. unfold Qle, int, Qfloor. simpl. intros Hn.
  apply Z.quot_div_nonneg; lia.
Qed.

Lemma num_folds_floor (s : Q) :
  (1 <= s)%Q -> range_len (num_folds s) = floor_folds s.
Proof.
  intros Hs. unfold range_len, num_folds, floor_folds.
  rewrite int_nonneg_floor; [done|].
  apply Qmult_le_0_compat; [|done].
  by apply (proj1 (Qle_minus_iff 1 s)).
Qed.

(** ** The store monad *)

Section monad.

Context {A B : Type}.

Lemma bind_return (c : M A) (k : A -> M B) h a h' :
  c h = (Return a, h') -> (c ≫= k) h = k a h'.
Proof. intros Hc. unfold mbind, M_bind. by rewrite Hc. Qed.

Lemma bind_raise (c : M A) (k : A -> M B) h e h' :
  c h = (Raise e, h') -> (c ≫= k) h = (Raise e, h').
Proof. intros Hc. unfold mbind, M_bind. by rewrite Hc. Qed.

End monad.

Lemma appends_ret r : appends (mret tt) r [].
Proof. intros h cur Hr. simpl. by rewrite insert_id. Qed.

Lemma appends_append r it : appends (Circuit_append r it) r [it].
Proof. intros h cur Hr. unfold Circuit_append. by rewrite Hr. Qed.

Lemma appends_seq (c1 c2 : M unit) r its1 its2 :
  appends c1 r its1 -> appends c2 r its2 ->
  appends (c1;; c2) r (its1 ++ its2).
Proof.
  intros H1 H2 h cur Hr.
  erewrite bind_return by (by apply H1).
  erewrite H2 by apply lookup_insert_eq.
  by rewrite insert_insert_eq, fold_left_app.
Qed.

Lemma appends_for_each {A} (xs : list A) (body : A -> M unit) r f :
  Forall (fun x => appends (body x) r (f x)) xs ->
  appends (for_each xs body) r (flat_map f xs).
Proof.
  induction 1 as [|x xs Hx _ IH]; simpl.
  - apply appends_ret.
  - by apply appends_seq.
Qed.

Lemma appends_for_range n (body : M unit) r its :
  appends body r its ->
  appends (for_range n body) r (concat (replicate n its)).
Proof.
  intros Hb. induction n as [|n IH]; simpl.
  - apply appends_ret.
  - by apply appends_seq.
Qed.

(** ** The folding loop appends to the new circuit only *)

Lemma inverse_of_spec op : invertible op -> inverse op = Return (inverse_of op).
Proof. intros [i Hi]. unfold inverse_of. by rewrite Hi. Qed.

Lemma appends_fold_op r op :
  invertible op -> appends (fold_op r op) r [IOp op; IOp (inverse_of op)].
Proof.
  intros Hinv h cur Hr. unfold fold_op.
  erewrite bind_return by (by apply appends_append).
  erewrite bind_return
    by (unfold lift; rewrite (inverse_of_spec op Hinv); reflexivity).
  erewrite appends_append by apply lookup_insert_eq.
  by rewrite insert_insert_eq.
Qed.

Lemma appends_scale_moment r s m :
  (1 <= s)%Q ->
  (has_measurement m = false -> floor_folds s = 0%nat \/ Forall invertible m) ->
  appends (scale_moment r s m) r (emitted_for s m).
Proof.
  intros Hs Hm. unfold scale_moment, emitted_for.
  destruct (has_measurement m) eqn:Hmeas; simpl.
  - apply appends_append.
  - apply (appends_seq _ _ r [IMoment m]); [apply appends_append|].
    rewrite num_folds_floor by done.
    destruct (Hm eq_refl) as [-> | Hinv]; [apply appends_ret|].
    apply appends_for_range. apply appends_for_each.
    eapply Forall_impl; [exact Hinv|]. intros op. apply appends_fold_op.
Qed.

Lemma floor_folds_lt (s : Q) : (s < 3 # 2)%Q -> floor_folds s = 0%nat.
Proof.
  intros Hs. unfold floor_folds.
  assert (Qfloor ((s - 1) * 2)%Q < 1); [|lia].
  destruct s as [n d]. unfold Qlt in Hs. simpl in Hs.
  unfold Qfloor, Qminus, Qplus, Qmult, Qopp. simpl.
  apply Z.div_lt_upper_bound; lia.
Qed.

Lemma floor_folds_ge (s : Q) : (3 # 2 <= s)%Q -> (1 <= floor_folds s)%nat.
Proof.
  intros Hs. unfold floor_folds.
  assert (1 <= Qfloor ((s - 1) * 2)%Q); [|lia].
  destruct s as [n d]. unfold Qle in Hs. simpl in Hs.
  unfold Qfloor, Qminus, Qplus, Qmult, Qopp. simpl.
  apply Z.div_le_lower_bound; lia.
Qed.

Lemma floor_folds_one (s : Q) : (s == 1)%Q -> floor_folds s = 0%nat.
Proof. intros Hs. apply floor_folds_lt. by rewrite Hs. Qed.

Lemma fold_left_append_moments (ms cur : Moments) :
  fold_left append_item (map IMoment ms) cur = cur ++ ms.
Proof.
  revert cur. induction ms as [|m ms IH]; intros cur; simpl.
  - by rewrite app_nil_r.
  - rewrite IH. unfold append_moment. by rewrite <- app_assoc.
Qed.

Lemma emitted_no_folds s ms :
  floor_folds s = 0%nat -> emitted s ms = map IMoment ms.
Proof.
  intros Hz. unfold emitted. induction ms as [|m ms IH]; [done|].
  simpl. rewrite IH. unfold emitted_for. rewrite Hz.
  by destruct (has_measurement m).
Qed.

Lemma foldable_at (s : Q) ms :
  ((3 # 2 <= s)%Q -> foldable ms) ->
  Forall (fun m => has_measurement m = false ->
                   floor_folds s = 0%nat \/ Forall invertible m) ms.
Proof.
  intros Hf. destruct (Qlt_le_dec s (3 # 2)) as [Hlt | Hge].
  - apply Forall_forall. intros m _ _. left. by apply floor_folds_lt.
  - eapply Forall_impl; [exact (Hf Hge)|]. intros m Hm Hmeas. right. auto.
Qed.

(** The result of [scale_noise] on an allocated circuit. *)
Lemma scale_noise_run (h : heap) c ms s :
  h !! c = Some ms -> (1 <= s)%Q -> ((3 # 2 <= s)%Q -> foldable ms) ->
  scale_noise c s h =
    if Qeq_bool s 1 then (Return c, h)
    else (Return (fresh (dom h)), <[fresh (dom h) := build (emitted s ms)]> h).
Proof.
  intros Hc Hs Hf. unfold scale_noise.
  destruct (Qeq_bool s 1) eqn:Hone; [done|].
  set (r := fresh (dom h)).
  assert (Hr : h !! r = None)
    by (apply not_elem_of_dom; apply is_fresh).
  assert (Hne : r <> c) by (intros ->; congruence).
  erewrite bind_return by reflexivity. fold r.
  erewrite bind_return; cycle 1.
  { unfold Circuit_moments. rewrite lookup_insert_ne by done.
    rewrite Hc. reflexivity. }
  erewrite bind_return; cycle 1.
  { apply (appends_for_each ms _ r (emitted_for s)); [|apply lookup_insert_eq].
    eapply Forall_impl; [apply (foldable_at s ms Hf)|].
    intros m Hm. by apply appends_scale_moment. }
  simpl. by rewrite insert_insert_eq.
Qed.

Lemma bell_store_eq : bell_store = (Return bell_loc, {[bell_loc := bell_moments]}).
Proof. vm_compute. reflexivity. Qed.

Lemma bell_lookup : bell_store.2 !! bell_loc = Some bell_moments.
Proof. vm_compute. reflexivity. Qed.

Lemma bell_foldable : foldable bell_moments.
Proof.
  repeat apply Forall_cons_2; try apply Forall_nil_2; intros Hm;
    try discriminate Hm;
    repeat apply Forall_cons_2; try apply Forall_nil_2; by eexists.
Qed.

(** ** The moments of the folded circuit under cirq's EARLIEST placement *)

Lemma blocks_intro (L : Moment) op o' q :
  o' ∈ L -> q ∈ qubits op -> q ∈ qubits o' -> blocks L op = true.
Proof.
  intros Ho' Hq Hq'. unfold blocks, operates_on.
  apply orb_true_intro. left. apply existsb_exists.
  exists o'. split; [by apply list_elem_of_In|].
  apply existsb_exists. exists q. split; [by apply list_elem_of_In|].
  by apply bool_decide_eq_true_2.
Qed.

Lemma blocks_disjoint (L : Moment) op :
  (forall o' q, o' ∈ L -> q ∈ qubits op -> q ∉ qubits o') ->
  measurement_keys op = [] -> blocks L op = false.
Proof.
  intros Hdis Hkeys. unfold blocks, operates_on, shares_key.
  rewrite Hkeys. apply orb_false_intro.
  - apply not_true_is_false. intros Hex.
    apply existsb_exists in Hex as (o' & Ho' & Hex).
    apply existsb_exists in Hex as (q & Hq & Hdec).
    apply bool_decide_eq_true_1 in Hdec.
    apply list_elem_of_In in Ho', Hq. by apply (Hdis o' q).
  - induction L as [|o' L IH]; [done|]. simpl. apply IH.
    intros o'' q Ho''. apply Hdis. by right.
Qed.

Lemma scan_back_skip op (xs rest : Moments) :
  Forall (fun m => blocks m op = false) xs ->
  scan_back op (xs ++ rest) = scan_back op rest.
Proof. induction 1 as [|m xs Hm _ IH]; simpl; [done|]. by rewrite Hm. Qed.

Lemma earliest_after_blocker (pre : Moments) (L : Moment) (suf : Moments) op :
  blocks L op = true -> Forall (fun m => blocks m op = false) suf ->
  earliest_available_moment (pre ++ L :: suf) op = S (length pre).
Proof.
  intros HL Hsuf. unfold earliest_available_moment.
  rewrite rev_app_distr. simpl. rewrite <- app_assoc. simpl.
  rewrite scan_back_skip by (by apply List.Forall_rev).
  simpl. rewrite HL. by rewrite length_rev.
Qed.

Lemma append_op_new (pre : Moments) (L : Moment) op :
  blocks L op = true -> append_op (pre ++ [L]) op = pre ++ [L; [op]].
Proof.
  intros HL. unfold append_op.
  rewrite earliest_after_blocker by (done || constructor).
  rewrite lookup_ge_None_2 by (rewrite length_app; simpl; lia).
  by rewrite <- app_assoc.
Qed.

Lemma append_op_join (pre : Moments) (L A : Moment) (suf : Moments) op :
  blocks L op = true -> blocks A op = false ->
  Forall (fun m => blocks m op = false) suf ->
  append_op (pre ++ L :: A :: suf) op = pre ++ L :: (A ++ [op]) :: suf.
Proof.
  intros HL HA Hsuf. unfold append_op.
  rewrite earliest_after_blocker by (done || by constructor).
  rewrite lookup_app_r by lia.
  replace (S (length pre) - length pre)%nat with 1%nat by lia. simpl.
  rewrite insert_app_r_alt by lia.
  by replace (S (length pre) - length pre)%nat with 1%nat by lia.
Qed.

Lemma qubits_inverse_of op : qubits (inverse_of op) = qubits op.
Proof. unfold inverse_of, inverse. by destruct (gate op). Qed.

Lemma keys_invertible op :
  invertible op ->
  measurement_keys op = [] /\ measurement_keys (inverse_of op) = [].
Proof.
  intros [i Hi]. unfold inverse_of. rewrite Hi.
  unfold inverse in Hi. unfold measurement_keys.
  destruct (gate op) eqn:Hg; try discriminate Hi;
    injection Hi as <-; by rewrite Hg.
Qed.

(** An operation with a qubit is stopped by a moment that holds it or its
    inverse. *)
Lemma blocks_self (L : Moment) o :
  qubits o <> [] -> (o ∈ L \/ inverse_of o ∈ L) ->
  blocks L o = true /\ blocks L (inverse_of o) = true.
Proof.
  intros Hq Hin. destruct (qubits o) as [|q qs] eqn:Eq; [done|].
  assert (Hqo : q ∈ qubits o) by (rewrite Eq; left).
  destruct Hin as [Hin|Hin]; split;
    eapply blocks_intro; try exact Hin;
    rewrite ?qubits_inverse_of; exact Hqo.
Qed.

Lemma covers_self (m : Moment) :
  Forall (fun op => qubits op <> []) m ->
  covers m m /\ covers (map inverse_of m) m.
Proof.
  intros Hq. split; apply Forall_forall; intros o Ho;
    apply blocks_self;
    try (by eapply Forall_forall in Hq).
  - by left.
  - right. by apply list_elem_of_fmap_2.
Qed.

(** Neither the operations placed so far nor their inverses stop an
    operation on other qubits. *)
Lemma blocks_other (done : Moment) o :
  (forall q, q ∈ flat_map qubits done -> q ∉ qubits o) ->
  invertible o ->
  blocks done o = false /\ blocks (map inverse_of done) o = false /\
  blocks (map inverse_of done) (inverse_of o) = false.
Proof.
  intros Hdis Hinv. destruct (keys_invertible o Hinv) as [Hk Hki].
  assert (Hd : forall o' q, o' ∈ done -> q ∈ qubits o -> q ∉ qubits o').
  { intros o' q Ho' Hq Hq'. apply (Hdis q); [|done].
    apply list_elem_of_In, in_flat_map. exists o'.
    split; by apply list_elem_of_In. }
  assert (Hdi : forall o' q, o' ∈ map inverse_of done -> q ∈ qubits o ->
                             q ∉ qubits o').
  { intros o' q Ho' Hq. apply list_elem_of_fmap in Ho' as (o'' & -> & Ho'').
    rewrite qubits_inverse_of. by apply Hd. }
  split; [by apply blocks_disjoint|]. split; [by apply blocks_disjoint|].
  apply blocks_disjoint; [|done]. intros o' q Ho'.
  rewrite qubits_inverse_of. by apply Hdi.
Qed.

Lemma fold_pairs_join (rest done : Moment) (pre : Moments) (L : Moment) :
  NoDup (flat_map qubits (done ++ rest)) ->
  Forall (fun op => qubits op <> []) rest ->
  Forall invertible rest -> covers L rest ->
  fold_left append_item (folded_pairs rest)
    (pre ++ [L; done; map inverse_of done])
  = pre ++ [L; done ++ rest; map inverse_of (done ++ rest)].
Proof.
  revert done. induction rest as [|o rest IH]; intros done Hnd Hq Hinv Hcov.
  - simpl. by rewrite app_nil_r.
  - apply Forall_cons in Hq as [Hqo Hq].
    apply Forall_cons in Hinv as [Hio Hinv].
    apply Forall_cons in Hcov as [[HLo HLi] Hcov].
    assert (Hdis : forall q, q ∈ flat_map qubits done -> q ∉ qubits o).
    { rewrite flat_map_app in Hnd. apply NoDup_app in Hnd as (_ & Hd & _).
      intros q Hq1 Hq2. apply (Hd q Hq1). simpl.
      apply elem_of_app. by left. }
    destruct (blocks_other done o Hdis Hio) as (Hb1 & Hb2 & Hb3).
    change (folded_pairs (o :: rest))
      with (IOp o :: IOp (inverse_of o) :: folded_pairs rest).
    cbn [fold_left append_item].
    rewrite (append_op_join pre L done [map inverse_of done] o)
      by (done || by constructor).
    change (pre ++ L :: (done ++ [o]) :: [map inverse_of done])
      with (pre ++ [L] ++ (done ++ [o]) :: map inverse_of done :: []).
    rewrite (app_assoc pre [L]).
    rewrite (append_op_join (pre ++ [L]) (done ++ [o]) (map inverse_of done) []
               (inverse_of o)); [| |done|constructor].
    + rewrite <- (app_assoc pre [L]). simpl.
      replace (map inverse_of done ++ [inverse_of o])
        with (map inverse_of (done ++ [o])) by (by rewrite map_app).
      rewrite (IH (done ++ [o])); [|by rewrite <- app_assoc|done..].
      by rewrite <- !app_assoc.
    + apply blocks_self; [done|]. left. apply elem_of_app. right. by left.
Qed.

Lemma fold_pairs_moment (m : Moment) (pre : Moments) (L : Moment) :
  m <> [] -> moment_ok m -> Forall invertible m -> covers L m ->
  fold_left append_item (folded_pairs m) (pre ++ [L])
  = pre ++ [L; m; map inverse_of m].
Proof.
  intros Hne [Hnd Hq] Hinv Hcov. destruct m as [|o rest]; [done|].
  pose proof Hq as Hq'. pose proof Hinv as Hinv'. pose proof Hcov as Hcov'.
  apply Forall_cons in Hq' as [Hqo Hqr].
  apply Forall_cons in Hinv' as [Hio Hir].
  apply Forall_cons in Hcov' as [[HLo HLi] Hcr].
  change (folded_pairs (o :: rest))
    with (IOp o :: IOp (inverse_of o) :: folded_pairs rest).
  cbn [fold_left append_item].
  rewrite append_op_new by done.
  change (pre ++ [L; [o]]) with (pre ++ [L] ++ [[o]]).
  rewrite (app_assoc pre [L]).
  rewrite append_op_new
    by (apply blocks_self; [done|left; by left]).
  rewrite <- (app_assoc pre [L]).
  change ([L] ++ [[o]; [inverse_of o]])
    with [L; [o]; map inverse_of [o]].
  by rewrite (fold_pairs_join rest [o] pre L).
Qed.

Lemma fold_pairs_repeat n (m : Moment) (pre : Moments) (L : Moment) :
  m <> [] -> moment_ok m -> Forall invertible m -> covers L m ->
  fold_left append_item (concat (replicate n (folded_pairs m))) (pre ++ [L])
  = pre ++ L :: concat (replicate n [m; map inverse_of m]).
Proof.
  intros Hne Hok Hinv. revert pre L.
  induction n as [|n IH]; intros pre L Hcov; [done|].
  simpl. rewrite fold_left_app, fold_pairs_moment by done.
  change (pre ++ [L; m; map inverse_of m])
    with (pre ++ [L; m] ++ [map inverse_of m]).
  rewrite (app_assoc pre [L; m]).
  rewrite IH by (apply covers_self, Hok).
  by rewrite <- app_assoc.
Qed.

Lemma concat_replicate_nil {A} n : concat (replicate n (@nil A)) = [].
Proof. induction n; [done|]. done. Qed.

Lemma fold_left_emitted_for s (m : Moment) (cur : Moments) :
  (has_measurement m = false ->
   floor_folds s = 0%nat \/ (moment_ok m /\ Forall invertible m)) ->
  fold_left append_item (emitted_for s m) cur = cur ++ folded_moments s m.
Proof.
  intros Hm. unfold emitted_for, folded_moments.
  destruct (has_measurement m) eqn:Hmeas; [done|].
  cbn [fold_left append_item]. unfold append_moment.
  destruct m as [|o rest].
  - change (folded_pairs []) with (@nil item).
    by rewrite concat_replicate_nil.
  - destruct (Hm eq_refl) as [-> | [Hok Hinv]]; [done|].
    rewrite fold_pairs_repeat; [done..|]. apply covers_self, Hok.
Qed.

(** With well-formed moments the folded circuit is, moment for moment: each
    moment with a measurement as it was; each measurement-free moment
    followed by [floor((s - 1) * 2)] copies of itself and of the moment of
    its inverses. *)
Lemma build_emitted_moments s (ms : Moments) :
  Forall (fun m => has_measurement m = false ->
            floor_folds s = 0%nat \/ (moment_ok m /\ Forall invertible m)) ms ->
  build (emitted s ms) = flat_map (folded_moments s) ms.
Proof.
  intros Hms. unfold build, emitted.
  change (flat_map (folded_moments s) ms)
    with ([] ++ flat_map (folded_moments s) ms).
  generalize (@nil Moment) as cur.
  induction Hms as [|m ms Hm _ IH]; intros cur; simpl.
  - by rewrite app_nil_r.
  - by rewrite fold_left_app, fold_left_emitted_for, IH, <- app_assoc.
Qed.

Lemma scale_noise_result (h : heap) (c : loc) (ms : Moments) (s : Q) :
  h !! c = Some ms ->
  (1 <= s)%Q ->
  ((3 # 2 <= s)%Q -> foldable ms) ->
  exists r h',
    scale_noise c s h = (Return r, h') /\
    h' !! r = Some (build (emitted s ms)).
Proof.
  intros Hc Hs Hf. rewrite (scale_noise_run h c ms s Hc Hs Hf).
  destruct (Qeq_bool s 1) eqn:Hone.
  - exists c, h. split; [done|].
    rewrite emitted_no_folds
      by (apply floor_folds_one; by apply Qeq_bool_iff).
    unfold build. by rewrite fold_left_append_moments.
  - eexists _, _. split; [done|]. apply lookup_insert_eq.
Qed.

(** ** What [scale_noise] returns *)

(** C1 (the code at the failing input): [main] builds [noisy_circuit] with
    [add_noise_to_circuit] and folds it at the scales 1.0, 1.5, ...  At 1.5
    the first moment [[H q0]] is folded once; in the second moment
    [cirq.inverse] is called on the depolarizing channel and raises
    [TypeError]: no circuit is returned, so the folded sequence is not
    emitted. *)
Theorem C1_noisy_circuit_raises :
  noisy_store.1 = Return noisy_loc /\
  noisy_store.2 !! noisy_loc
  = Some [[on H [q0]]; [on (depolarize (1 # 20)) [q0]];
          [on CNOT [q0; q1]];
          [on (depolarize (1 # 20)) [q0]; on (depolarize (1 # 20)) [q1]];
          [measure q0 "q0"; measure q1 "q1"]] /\
  (1 <= 3 # 2)%Q /\
  (scale_noise noisy_loc (3 # 2) noisy_store.2).1 = Raise TypeError /\
  ~ fold_emits noisy_store.2 noisy_loc (3 # 2).
Proof.
  split; [vm_compute; reflexivity|]. split; [vm_compute; reflexivity|].
  split; [discriminate|].
  assert (Hrun : (scale_noise noisy_loc (3 # 2) noisy_store.2).1
                 = Raise TypeError) by (vm_compute; reflexivity).
  split; [exact Hrun|].
  intros (ms & r & h' & _ & Heq & _). rewrite Heq in Hrun. discriminate Hrun.
Qed.

(** Where every folded operation has an inverse the law holds: for every
    circuit and every scale factor [s >= 1] such that, when [s >= 1.5], each
    operation of a measurement-free moment has an inverse, [scale_noise]
    returns a circuit built by appending, moment by moment and in moment
    order: for a moment without measurement the moment itself and then
    [floor((s - 1) * 2)] repetitions of its operations, each followed
    immediately by its inverse; for a moment with a measurement the moment
    alone.  When the measurement-free moments are well formed (their
    operations act on disjoint, non-empty sets of qubits), cirq places what
    was appended as follows: a moment with a measurement or without
    operations stays as it is, and every other moment is followed by
    [floor((s - 1) * 2)] copies of itself and of the moment of its
    inverses. *)
Theorem scale_noise_emits (h : heap) (c : loc) (ms : Moments) (s : Q) :
  h !! c = Some ms ->
  (1 <= s)%Q ->
  ((3 # 2 <= s)%Q -> foldable ms) ->
  exists r h',
    scale_noise c s h = (Return r, h') /\
    h' !! r = Some (build (emitted s ms)) /\
    (Forall (fun m => has_measurement m = false -> moment_ok m) ms ->
     build (emitted s ms) = flat_map (folded_moments s) ms).
Proof.
  intros Hc Hs Hf.
  destruct (scale_noise_result h c ms s Hc Hs Hf) as (r & h' & Hrun & Hr).
  exists r, h'. split; [done|]. split; [done|].
  intros Hok. apply build_emitted_moments.
  pose proof (foldable_at s ms Hf) as Hat.
  apply Forall_forall. intros m Hm Hmeas.
  destruct (proj1 (Forall_forall _ _) Hat m Hm Hmeas) as [Hz|Hinv]; [by left|].
  right. split; [|done]. by apply (proj1 (Forall_forall _ _) Hok m Hm).
Qed.

Example scale_noise_emits_bell :
  exists r h',
    scale_noise bell_loc 2 bell_store.2 = (Return r, h') /\
    h' !! r = Some (build (emitted 2 bell_moments)) /\
    (Forall (fun m => has_measurement m = false -> moment_ok m) bell_moments ->
     build (emitted 2 bell_moments) = flat_map (folded_moments 2) bell_moments).
Proof.
  apply (scale_noise_emits bell_store.2 bell_loc bell_moments 2).
  - exact bell_lookup.
  - discriminate.
  - intros _. exact bell_foldable.
Qed.

(** The Bell circuit folded at scale 2: each of the two gate moments five
    times, then the measurements. *)
Example scale_noise_bell_2 :
  (scale_noise bell_loc 2 bell_store.2).1 = Return 2%positive /\
  (scale_noise bell_loc 2 bell_store.2).2 !! 2%positive
  = Some (replicate 5 [on H [q0]] ++ replicate 5 [on CNOT [q0; q1]]
          ++ [[measure q0 "q0"; measure q1 "q1"]]).
Proof. split; vm_compute; reflexivity. Qed.

(** C3: [scale_noise(circuit, 1.0)] returns the input circuit object itself
    and leaves the store as it was, so the result has the same moments in the
    same order as the input. *)
Theorem C3_scale_noise_identity (h : heap) (c : loc) :
  scale_noise c 1 h = (Return c, h).
Proof. reflexivity. Qed.

(** ** Frame: what a call may change in the store *)

Lemma touches_only_ret {A} (a : A) r : touches_only (mret a) r.
Proof. by intros h l _. Qed.

Lemma touches_only_lift {A} (o : outcome A) r : touches_only (lift o) r.
Proof. by intros h l _. Qed.

Lemma touches_only_append r it : touches_only (Circuit_append r it) r.
Proof.
  intros h l Hl. unfold Circuit_append.
  destruct (h !! r); simpl; [|done]. by rewrite lookup_insert_ne.
Qed.

Lemma touches_only_moments c r : touches_only (Circuit_moments c) r.
Proof. intros h l _. unfold Circuit_moments. by destruct (h !! c). Qed.

Lemma touches_only_bind {A B} (c : M A) (k : A -> M B) r :
  touches_only c r -> (forall a, touches_only (k a) r) ->
  touches_only (c ≫= k) r.
Proof.
  intros Hc Hk h l Hl. unfold mbind, M_bind.
  specialize (Hc h l Hl). destruct (c h) as [[a|e] h1]; simpl in *.
  - by rewrite Hk.
  - done.
Qed.

Lemma touches_only_for_each {A} (xs : list A) (body : A -> M unit) r :
  (forall x, touches_only (body x) r) -> touches_only (for_each xs body) r.
Proof.
  intros Hb. induction xs as [|x xs IH]; simpl.
  - apply touches_only_ret.
  - apply touches_only_bind; auto.
Qed.

Lemma touches_only_for_range n (body : M unit) r :
  touches_only body r -> touches_only (for_range n body) r.
Proof.
  intros Hb. induction n as [|n IH]; simpl.
  - apply touches_only_ret.
  - apply touches_only_bind; auto.
Qed.

Lemma touches_only_scale_moment r s m : touches_only (scale_moment r s m) r.
Proof.
  unfold scale_moment. destruct (negb (has_measurement m)).
  - apply touches_only_bind; [apply touches_only_append|]. intros _.
    apply touches_only_for_range, touches_only_for_each. intros op.
    unfold fold_op.
    apply touches_only_bind; [apply touches_only_append|]. intros _.
    apply touches_only_bind; [apply touches_only_lift|]. intros i.
    apply touches_only_append.
  - apply touches_only_append.
Qed.

(** Whatever the outcome, [scale_noise] changes no circuit object that
    existed before the call, and a circuit it returns is the input itself
    exactly when [scale_factor == 1.0]. *)
Lemma scale_noise_frame (h : heap) c s o h' :
  scale_noise c s h = (o, h') ->
  (forall l, l ∈ dom h -> h' !! l = h !! l) /\
  (forall r, o = Return r ->
     if Qeq_bool s 1 then r = c /\ h' = h else r ∉ dom h).
Proof.
  unfold scale_noise. destruct (Qeq_bool s 1) eqn:Hone.
  - intros [= <- <-]. split; [done|]. by intros r [= ->].
  - set (r := fresh (dom h)).
    assert (Hr : r ∉ dom h) by apply is_fresh.
    intros Hrun. unfold mbind at 1, M_bind at 1 in Hrun.
    change (Circuit_new h) with (@Return positive r, <[r := []]> h) in Hrun.
    cbv iota beta in Hrun.
    match type of Hrun with ?f _ = _ => set (rest := f) in Hrun end.
    assert (Hrest : touches_only rest r).
    { apply touches_only_bind; [apply touches_only_moments|]. intros ms.
      apply touches_only_bind.
      - apply touches_only_for_each. intros m. apply touches_only_scale_moment.
      - intros _. apply touches_only_ret. }
    split.
    + intros l Hl. assert (l <> r) by (intros ->; done).
      specialize (Hrest (<[r := []]> h) l H0). rewrite Hrun in Hrest.
      simpl in Hrest. by rewrite Hrest, lookup_insert_ne.
    + intros r' ->. subst rest.
      unfold mbind, M_bind in Hrun.
      destruct (Circuit_moments c (<[r:=[]]> h)) as [[ms|e] h1]; [|done].
      destruct (for_each ms _ h1) as [[[]|e] h2]; [|done].
      simpl in Hrun. by injection Hrun as <- _.
Qed.

(** C9 (as stated, refuted): at [scale_factor == 1.0] the returned circuit is
    the input object, so the result and the input share their (mutable)
    moment list. *)
Lemma C9_counterexample :
  bell_store.2 !! bell_loc = Some bell_moments /\ (1 <= 1)%Q /\
  ~ fold_fresh_result bell_store.2 bell_loc 1.
Proof.
  split; [exact bell_lookup|]. split; [discriminate|].
  intros Hfresh.
  destruct (Hfresh (Return bell_loc) bell_store.2 eq_refl) as [_ Hne].
  by apply (Hne bell_loc).
Qed.

(** C9 (amended): for every circuit and every scale factor, [scale_noise]
    changes no circuit that existed before the call (the input included),
    whether it returns or raises; for [scale_factor != 1.0] a returned
    circuit is a newly allocated object, distinct from every earlier one;
    for [scale_factor == 1.0] the returned circuit is the input object
    itself. *)
Theorem C9_scale_noise_frame (h : heap) (c : loc) (s : Q) o h' :
  scale_noise c s h = (o, h') ->
  (forall l, l ∈ dom h -> h' !! l = h !! l) /\
  (forall r, o = Return r ->
     if Qeq_bool s 1 then r = c /\ h' = h else r ∉ dom h).
Proof. apply scale_noise_frame. Qed.

Lemma C9_scale_noise_frame_witness :
  (forall l, l ∈ dom bell_store.2 ->
     (scale_noise bell_loc 2 bell_store.2).2 !! l = bell_store.2 !! l) /\
  (forall r, (scale_noise bell_loc 2 bell_store.2).1 = Return r ->
     if Qeq_bool 2 1 then r = bell_loc /\
                          (scale_noise bell_loc 2 bell_store.2).2 = bell_store.2
     else r ∉ dom bell_store.2).
Proof.
  apply (C9_scale_noise_frame bell_store.2 bell_loc 2).
  apply surjective_pairing.
Defined.

(** The aliasing at scale 1.0 is observable: appending to the circuit that
    [scale_noise] returned changes the moments of the input circuit. *)
Example scale_noise_one_aliases :
  (r ← scale_noise bell_loc 1; Circuit_append r (IOp (on X [q0])))
    bell_store.2
  = (Return tt, {[bell_loc := bell_moments ++ [[on X [q0]]]]}).
Proof. vm_compute. reflexivity. Qed.

(** ** Counting operations *)

Lemma count_ops_app (ms1 ms2 : Moments) :
  count_ops (ms1 ++ ms2) = (count_ops ms1 + count_ops ms2)%nat.
Proof. unfold count_ops, all_operations. by rewrite concat_app, length_app. Qed.

Lemma count_ops_append_op (ms : Moments) op :
  count_ops (append_op ms op) = S (count_ops ms).
Proof.
  unfold append_op. set (p := earliest_available_moment ms op).
  destruct (ms !! p) as [m|] eqn:Hp.
  - rewrite insert_take_drop by (by eapply lookup_lt_Some).
    rewrite <- (take_drop_middle ms p m Hp) at 3.
    rewrite !count_ops_app. unfold count_ops, all_operations. simpl.
    rewrite !length_app. simpl. lia.
  - rewrite count_ops_app. unfold count_ops, all_operations. simpl. lia.
Qed.

Lemma count_ops_append_item (ms : Moments) it :
  count_ops (append_item ms it) = (count_ops ms + length (item_ops it))%nat.
Proof.
  destruct it as [m|op]; simpl.
  - unfold append_moment. rewrite count_ops_app.
    unfold count_ops at 2, all_operations. simpl. by rewrite app_nil_r.
  - rewrite count_ops_append_op. lia.
Qed.

(** No [append] loses or duplicates an operation. *)
Lemma count_ops_fold_left (its : list item) (cur : Moments) :
  count_ops (fold_left append_item its cur)
  = (count_ops cur + length (items_ops its))%nat.
Proof.
  revert cur. induction its as [|it its IH]; intros cur; simpl.
  - lia.
  - rewrite IH, count_ops_append_item. unfold items_ops. simpl.
    rewrite length_app. fold (items_ops its). lia.
Qed.

Lemma count_ops_build (its : list item) :
  count_ops (build its) = length (items_ops its).
Proof. unfold build. by rewrite count_ops_fold_left. Qed.

Lemma items_ops_app (a b : list item) :
  items_ops (a ++ b) = items_ops a ++ items_ops b.
Proof. unfold items_ops. by rewrite flat_map_app. Qed.

Lemma length_folded_pairs (m : Moment) :
  length (items_ops (folded_pairs m)) = (2 * length m)%nat.
Proof.
  unfold folded_pairs, items_ops. induction m as [|op m IH]; simpl; [done|].
  rewrite IH. lia.
Qed.

Lemma length_items_ops_replicate n (its : list item) :
  length (items_ops (concat (replicate n its)))
  = (n * length (items_ops its))%nat.
Proof.
  induction n as [|n IH]; simpl; [done|].
  by rewrite items_ops_app, length_app, IH.
Qed.

Lemma length_emitted_for s (m : Moment) :
  has_measurement m = false ->
  length (items_ops (emitted_for s m))
  = (length m * (1 + 2 * floor_folds s))%nat.
Proof.
  intros Hm. unfold emitted_for. rewrite Hm.
  change (IMoment m :: ?l) with ([IMoment m] ++ l).
  rewrite items_ops_app, length_app, length_items_ops_replicate,
    length_folded_pairs.
  unfold items_ops. simpl. rewrite app_nil_r. lia.
Qed.

Lemma fold_block_emitted s (m : Moment) : fold_block s m (emitted_for s m).
Proof.
  unfold fold_block. destruct (has_measurement m) eqn:Hm.
  - unfold emitted_for. by rewrite Hm.
  - rewrite length_emitted_for by done. split; [done|]. split.
    + intros Hs. rewrite floor_folds_lt by done. lia.
    + intros Hs Hne. pose proof (floor_folds_ge s Hs).
      destruct m; [done|]. simpl. nia.
Qed.

Lemma fold_block_stated_length (m : Moment) b :
  fold_block_stated (5 # 4) m b -> (length m <= length (items_ops b))%nat.
Proof.
  unfold fold_block_stated. destruct (has_measurement m).
  - intros ->. unfold items_ops. simpl. rewrite app_nil_r. lia.
  - simpl. lia.
Qed.

(** C4 (as stated, refuted): at scale 1.25 the Bell circuit comes back with
    the moments it had, four operations in all, although the scale factor is
    not 1.0: no block decomposition of the result gives each of the two
    measurement-free moments more operations than it had. *)
Lemma C4_counterexample :
  bell_store.2 !! bell_loc = Some bell_moments /\ (1 <= 5 # 4)%Q /\
  (exists r h', scale_noise bell_loc (5 # 4) bell_store.2 = (Return r, h') /\
                h' !! r = Some bell_moments) /\
  ~ fold_counts_stated bell_store.2 bell_loc (5 # 4).
Proof.
  split; [exact bell_lookup|]. split; [discriminate|].
  assert (Hrun : scale_noise bell_loc (5 # 4) bell_store.2
                 = (Return 2%positive,
                    <[2%positive := bell_moments]> bell_store.2))
    by (vm_compute; reflexivity).
  split.
  { eexists _, _. split; [exact Hrun|]. apply lookup_insert_eq. }
  intros (ms & r & h' & blocks & Hms & Hrun' & Hout & Hblocks).
  rewrite bell_lookup in Hms. injection Hms as <-.
  rewrite Hrun in Hrun'. injection Hrun' as <- <-.
  rewrite lookup_insert_eq in Hout. injection Hout as Hout.
  apply (f_equal count_ops) in Hout. rewrite count_ops_build in Hout.
  unfold bell_moments in Hblocks.
  apply Forall2_cons_inv_l in Hblocks as (b1 & k1 & H1 & Hblocks & ->).
  apply Forall2_cons_inv_l in Hblocks as (b2 & k2 & H2 & Hblocks & ->).
  apply Forall2_cons_inv_l in Hblocks as (b3 & k3 & H3 & Hblocks & ->).
  apply Forall2_nil_inv_l in Hblocks as ->.
  apply fold_block_stated_length in H3.
  unfold fold_block_stated in H1, H2. simpl in H1, H2, H3, Hout.
  rewrite !items_ops_app, !length_app in Hout.
  unfold count_ops in Hout. simpl in Hout. lia.
Qed.

Lemma folded_moments_lengths s (m : Moment) :
  Forall (fun m' : Moment => length m' = length m) (folded_moments s m).
Proof.
  unfold folded_moments. destruct (has_measurement m); [by constructor|].
  destruct m as [|o rest]; [by constructor|].
  constructor; [done|].
  induction (floor_folds s) as [|n IH]; simpl; [constructor|].
  constructor; [done|]. constructor; [|exact IH].
  simpl. by rewrite length_map.
Qed.

(** C4 (amended): for every circuit and every scale factor [s >= 1] (with
    invertible operations in the measurement-free moments when [s >= 1.5]),
    the result of [scale_noise] is built from one block per input moment, in
    order.  The block of a moment with a measurement is that moment alone.
    The block of a measurement-free moment of [k] operations holds
    [k * (1 + 2 * floor((s - 1) * 2))] operations: exactly [k] whenever
    [s < 1.5] (not only at 1.0), and more than [k] when [s >= 1.5] and the
    moment is not empty.  The result holds exactly the operations of its
    blocks.  With well-formed moments cirq places each block in moments of
    [k] operations each: no moment of the result holds more operations than
    the moment it comes from. *)
Theorem C4_scale_noise_counts (h : heap) (c : loc) (ms : Moments) (s : Q) :
  h !! c = Some ms ->
  (1 <= s)%Q ->
  ((3 # 2 <= s)%Q -> foldable ms) ->
  exists r h' out,
    scale_noise c s h = (Return r, h') /\
    h' !! r = Some out /\
    out = build (concat (map (emitted_for s) ms)) /\
    Forall (fun m => fold_block s m (emitted_for s m)) ms /\
    count_ops out
    = sum_list (map (fun m => length (items_ops (emitted_for s m))) ms) /\
    (Forall (fun m => has_measurement m = false -> moment_ok m) ms ->
     out = flat_map (folded_moments s) ms /\
     Forall (fun m => Forall (fun m' : Moment => length m' = length m)
                        (folded_moments s m)) ms).
Proof.
  intros Hc Hs Hf.
  destruct (scale_noise_result h c ms s Hc Hs Hf) as (r & h' & Hrun & Hr).
  exists r, h', (build (emitted s ms)). split; [done|]. split; [done|].
  split; [by unfold emitted; rewrite flat_map_concat_map|]. split; [|split].
  - apply Forall_forall. intros m _. apply fold_block_emitted.
  - rewrite count_ops_build. unfold emitted.
    clear. induction ms as [|m ms IH]; simpl; [done|].
    by rewrite items_ops_app, length_app, IH.
  - intros Hok. split.
    + apply build_emitted_moments.
      pose proof (foldable_at s ms Hf) as Hat.
      apply Forall_forall. intros m Hm Hmeas.
      destruct (proj1 (Forall_forall _ _) Hat m Hm Hmeas) as [Hz|Hinv];
        [by left|].
      right. split; [|done]. by apply (proj1 (Forall_forall _ _) Hok m Hm).
    + apply Forall_forall. intros m _. apply folded_moments_lengths.
Qed.

Lemma C4_scale_noise_counts_witness :
  exists r h' out,
    scale_noise bell_loc 2 bell_store.2 = (Return r, h') /\
    h' !! r = Some out /\
    out = build (concat (map (emitted_for 2) bell_moments)) /\
    Forall (fun m => fold_block 2 m (emitted_for 2 m)) bell_moments /\
    count_ops out
    = sum_list (map (fun m => length (items_ops (emitted_for 2 m)))
                  bell_moments) /\
    (Forall (fun m => has_measurement m = false -> moment_ok m) bell_moments ->
     out = flat_map (folded_moments 2) bell_moments /\
     Forall (fun m => Forall (fun m' : Moment => length m' = length m)
                        (folded_moments 2 m)) bell_moments).
Proof.
  apply (C4_scale_noise_counts bell_store.2 bell_loc bell_moments 2).
  - exact bell_lookup.
  - discriminate.
  - intros _. exact bell_foldable.
Defined.

(** ** The linear fit *)

Lemma Qplus_nonneg (a b : Q) : (0 <= a)%Q -> (0 <= b)%Q -> (0 <= a + b)%Q.
Proof.
  intros Ha Hb. apply (Qle_trans _ (0 + 0)%Q); [done|].
  by apply Qplus_le_compat.
Qed.

Lemma Qplus_zero (a b : Q) :
  (0 <= a)%Q -> (0 <= b)%Q -> (a + b == 0)%Q -> (a == 0)%Q /\ (b == 0)%Q.
Proof.
  intros Ha Hb Hz.
  assert (Ha0 : (a == 0)%Q).
  { apply Qle_antisym; [|done]. rewrite <- Hz.
    apply (Qle_trans _ (a + 0)%Q); [rewrite Qplus_0_r; apply Qle_refl|].
    apply Qplus_le_compat; [apply Qle_refl|done]. }
  split; [done|]. rewrite Ha0 in Hz. by rewrite Qplus_0_l in Hz.
Qed.

Lemma sumQ_nonneg (l : list Q) : Forall (fun q => 0 <= q)%Q l -> (0 <= sumQ l)%Q.
Proof.
  induction 1 as [|q l Hq _ IH]; simpl; [apply Qle_refl|].
  by apply Qplus_nonneg.
Qed.

Lemma sumQ_zero (l : list Q) :
  Forall (fun q => 0 <= q)%Q l -> (sumQ l == 0)%Q -> Forall (fun q => q == 0)%Q l.
Proof.
  induction 1 as [|q l Hq Hl IH]; simpl; intros Hz; [constructor|].
  pose proof (sumQ_nonneg l Hl) as Hs.
  destruct (Qplus_zero q (sumQ l) Hq Hs Hz) as [Hq0 Hl0].
  constructor; auto.
Qed.

Lemma Qsquare_nonneg (q : Q) : (0 <= q * q)%Q.
Proof.
  destruct (Qlt_le_dec q 0) as [Hn|Hp].
  - assert (Hq : (q * q == (- q) * (- q))%Q) by ring. rewrite Hq.
    apply Qmult_le_0_compat; apply (Qopp_le_compat q 0), Qlt_le_weak, Hn.
  - by apply Qmult_le_0_compat.
Qed.

Lemma Qsquare_zero (q : Q) : (q * q == 0)%Q -> (q == 0)%Q.
Proof. intros Hq. by destruct (Qmult_integral _ _ Hq). Qed.

Lemma sq_dists_expand (a : Q) (x : list Q) :
  (sq_dists a x ==
   inject_Z (Z.of_nat (length x)) * (a * a) - 2 * a * sumQ x + dot x x)%Q.
Proof.
  unfold sq_dists, dot. induction x as [|xi x IH].
  - simpl. ring.
  - cbn [map sumQ fold_right zip_with length]. fold (sumQ (map (fun xi => (a - xi) * (a - xi))%Q x)).
    fold (sumQ x). fold (sumQ (zip_with Qmult x x)).
    rewrite IH. rewrite Nat2Z.inj_succ. unfold Z.succ. rewrite inject_Z_plus.
    ring.
Qed.

Lemma fit_det_cons (a : Q) (x : list Q) :
  (fit_det (a :: x) == fit_det x + sq_dists a x)%Q.
Proof.
  rewrite sq_dists_expand. unfold fit_det, dot.
  cbn [sumQ fold_right zip_with length].
  fold (sumQ x). fold (sumQ (zip_with Qmult x x)).
  rewrite Nat2Z.inj_succ. unfold Z.succ. rewrite inject_Z_plus. ring.
Qed.

Lemma sq_dists_nonneg (a : Q) (x : list Q) : (0 <= sq_dists a x)%Q.
Proof.
  apply sumQ_nonneg, Forall_map, Forall_forall. intros xi _.
  apply Qsquare_nonneg.
Qed.

Lemma fit_det_nonneg (x : list Q) : (0 <= fit_det x)%Q.
Proof.
  induction x as [|a x IH].
  - unfold fit_det. simpl. apply Qle_refl.
  - rewrite fit_det_cons. apply Qplus_nonneg; [done|apply sq_dists_nonneg].
Qed.

(** The determinant vanishes only when all the abscissas are equal. *)
Lemma fit_det_zero (x : list Q) :
  (fit_det x == 0)%Q ->
  forall i j xi xj, x !! i = Some xi -> x !! j = Some xj -> (xi == xj)%Q.
Proof.
  induction x as [|a x IH]; intros Hd i j xi xj Hi Hj; [done|].
  rewrite fit_det_cons in Hd.
  pose proof (fit_det_nonneg x) as H1. pose proof (sq_dists_nonneg a x) as H2.
  destruct (Qplus_zero _ _ H1 H2 Hd) as [Hdx Hsq].
  assert (Hall : forall k xk, x !! k = Some xk -> (a == xk)%Q).
  { intros k xk Hk.
    assert (Hz := sumQ_zero _
      (proj2 (Forall_map _ _ _) (proj2 (Forall_forall _ _)
         (fun xi _ => Qsquare_nonneg (a - xi)))) Hsq).
    rewrite Forall_map in Hz. rewrite Forall_lookup in Hz.
    specialize (Hz k xk Hk). simpl in Hz. apply Qsquare_zero in Hz.
    assert (Ha : (a == (a - xk) + xk)%Q) by ring.
    rewrite Ha, Hz. ring. }
  destruct i as [|i], j as [|j]; simpl in Hi, Hj.
  - injection Hi as <-. by injection Hj as <-.
  - injection Hi as <-. by eapply Hall.
  - injection Hj as <-. symmetry. by eapply Hall.
  - by apply (IH Hdx i j).
Qed.

Lemma fit_det_distinct (x : list Q) : two_distinct x -> ~ (fit_det x == 0)%Q.
Proof.
  intros (i & j & xi & xj & Hi & Hj & Hne) Hd.
  apply Hne. by apply (fit_det_zero x Hd i j).
Qed.

(** Sums over points of a line. *)
Lemma line_sums (x y : list Q) (m b : Q) :
  Forall2 (fun xi yi => yi == m * xi + b)%Q x y ->
  (sumQ y == m * sumQ x + inject_Z (Z.of_nat (length x)) * b)%Q /\
  (dot x y == m * dot x x + b * sumQ x)%Q.
Proof.
  unfold dot. induction 1 as [|xi yi x y Hxy _ [IH1 IH2]].
  - simpl. split; ring.
  - cbn [sumQ fold_right zip_with length].
    fold (sumQ x). fold (sumQ y). fold (sumQ (zip_with Qmult x x)).
    fold (sumQ (zip_with Qmult x y)).
    rewrite Nat2Z.inj_succ. unfold Z.succ. rewrite inject_Z_plus.
    rewrite IH1, IH2, Hxy. split; ring.
Qed.

Lemma polyfit1_full_rank (x y : list Q) :
  length x = length y -> ~ (fit_det x == 0)%Q ->
  polyfit1 x y =
    Return (((inject_Z (Z.of_nat (length x)) * dot x y - sumQ x * sumQ y)
             / fit_det x)%Q,
            ((sumQ y * dot x x - sumQ x * dot x y) / fit_det x)%Q).
Proof.
  intros Hlen Hd. unfold polyfit1.
  assert (length x <> 0%nat).
  { intros Hz. apply Hd. destruct x; [|done]. reflexivity. }
  rewrite bool_decide_eq_false_2 by done.
  rewrite bool_decide_eq_true_2 by done. simpl.
  fold (fit_det x).
  destruct (Qeq_bool (fit_det x) 0) eqn:Hb; [|done].
  by apply Qeq_bool_iff in Hb.
Qed.

(** On points of a line with two different abscissas the intercept is
    recovered exactly. *)
Lemma zne_exact_on_line (xs ys : list Q) (m b : Q) :
  two_distinct xs ->
  Forall2 (fun x y => y == m * x + b)%Q xs ys ->
  exists v, zero_noise_extrapolation xs ys = Return v /\ (v == b)%Q.
Proof.
  intros Hdist Hline.
  pose proof (fit_det_distinct xs Hdist) as Hd.
  pose proof (Forall2_length _ _ _ Hline) as Hlen.
  destruct (line_sums xs ys m b Hline) as [Hsy Hxy].
  unfold zero_noise_extrapolation. rewrite polyfit1_full_rank by done.
  eexists. split; [reflexivity|]. simpl.
  rewrite Hsy, Hxy.
  assert (Hnum :
    ((m * sumQ xs + inject_Z (Z.of_nat (length xs)) * b) * dot xs xs
     - sumQ xs * (m * dot xs xs + b * sumQ xs)
     == b * fit_det xs)%Q) by (unfold fit_det; ring).
  rewrite Hnum. by apply Qdiv_mult_l.
Qed.

(** *** The fit is the least-squares line *)

Lemma sse_expand (x y : list Q) (m b : Q) :
  length x = length y ->
  (sse x y m b ==
   dot y y - 2 * m * dot x y - 2 * b * sumQ y
   + m * m * dot x x + 2 * m * b * sumQ x
   + inject_Z (Z.of_nat (length x)) * (b * b))%Q.
Proof.
  unfold sse, dot. revert y.
  induction x as [|xi x IH]; intros [|yi y] Hlen; try discriminate Hlen.
  - simpl. ring.
  - injection Hlen as Hlen. specialize (IH y Hlen).
    cbn [sumQ fold_right zip_with length].
    fold (sumQ x). fold (sumQ y). fold (sumQ (zip_with Qmult x x)).
    fold (sumQ (zip_with Qmult x y)). fold (sumQ (zip_with Qmult y y)).
    fold (sumQ (zip_with
      (fun xi yi => (yi - (m * xi + b)) * (yi - (m * xi + b)))%Q x y)).
    rewrite IH. rewrite Nat2Z.inj_succ. unfold Z.succ. rewrite inject_Z_plus.
    ring.
Qed.

Lemma shift_squares_nonneg (x : list Q) (dm db : Q) :
  (0 <= dm * dm * dot x x + 2 * dm * db * sumQ x
        + inject_Z (Z.of_nat (length x)) * (db * db))%Q.
Proof.
  assert (Heq : (sumQ (map (fun xi => (dm * xi + db) * (dm * xi + db))%Q x)
                 == dm * dm * dot x x + 2 * dm * db * sumQ x
                    + inject_Z (Z.of_nat (length x)) * (db * db))%Q).
  { unfold dot. induction x as [|xi x IH]; [simpl; ring|].
    cbn [map sumQ fold_right zip_with length].
    fold (sumQ x). fold (sumQ (zip_with Qmult x x)).
    fold (sumQ (map (fun xi => (dm * xi + db) * (dm * xi + db))%Q x)).
    rewrite IH. rewrite Nat2Z.inj_succ. unfold Z.succ. rewrite inject_Z_plus.
    ring. }
  rewrite <- Heq. apply sumQ_nonneg, Forall_map, Forall_forall.
  intros xi _. apply Qsquare_nonneg.
Qed.

(** With two different abscissas, the line [polyfit1] returns has the least
    sum of squared vertical residuals among all lines. *)
Lemma polyfit1_least_squares (x y : list Q) (m0 b0 m b : Q) :
  length x = length y -> ~ (fit_det x == 0)%Q ->
  polyfit1 x y = Return (m0, b0) ->
  (sse x y m0 b0 <= sse x y m b)%Q.
Proof.
  intros Hlen Hd. rewrite polyfit1_full_rank by done. intros [= <- <-].
  rewrite !sse_expand by done.
  pose proof (shift_squares_nonneg x
    (m - (inject_Z (Z.of_nat (length x)) * dot x y - sumQ x * sumQ y)
         / fit_det x)
    (b - (sumQ y * dot x x - sumQ x * dot x y) / fit_det x)) as Hsq.
  revert Hsq Hd. unfold fit_det.
  generalize (inject_Z (Z.of_nat (length x))) (dot x x) (dot x y) (dot y y)
    (sumQ x) (sumQ y).
  intros n sxx sxy syy sx sy Hsq Hd.
  apply (proj2 (Qle_minus_iff _ _)).
  eapply Qle_trans; [exact Hsq|]. apply Qle_lteq. right. field. exact Hd.
Qed.

(** *** One scale factor only *)

Lemma constant_sums (x : list Q) (c : Q) :
  Forall (fun xi => xi == c)%Q x ->
  (sumQ x == inject_Z (Z.of_nat (length x)) * c)%Q /\
  (dot x x == inject_Z (Z.of_nat (length x)) * (c * c))%Q.
Proof.
  unfold dot. induction 1 as [|xi x Hxi _ [IH1 IH2]].
  - simpl. split; ring.
  - cbn [sumQ fold_right zip_with length].
    fold (sumQ x). fold (sumQ (zip_with Qmult x x)).
    rewrite Nat2Z.inj_succ. unfold Z.succ. rewrite inject_Z_plus.
    rewrite IH1, IH2, Hxi. split; ring.
Qed.

Lemma inject_length_nonzero {A} (x : list A) :
  x <> [] -> ~ (inject_Z (Z.of_nat (length x)) == 0)%Q.
Proof.
  intros Hne. destruct x; [done|].
  unfold Qeq. simpl. lia.
Qed.

Lemma polyfit1_rank_deficient (x y : list Q) (c : Q) :
  x <> [] -> length x = length y ->
  Forall (fun xi => xi == c)%Q x -> ~ (c == 0)%Q ->
  polyfit1 x y =
    Return ((sumQ y / (2 * sumQ x))%Q,
            (sumQ y / (2 * inject_Z (Z.of_nat (length x))))%Q).
Proof.
  intros Hne Hlen Hall Hc. unfold polyfit1.
  rewrite bool_decide_eq_false_2 by (by destruct x).
  rewrite bool_decide_eq_true_2 by done. simpl.
  destruct (constant_sums x c Hall) as [Hsx Hsxx].
  pose proof (inject_length_nonzero x Hne) as Hn.
  assert (Hd : Qeq_bool
    (inject_Z (Z.of_nat (length x)) * dot x x - sumQ x * sumQ x) 0 = true).
  { apply Qeq_bool_iff. rewrite Hsx, Hsxx. ring. }
  rewrite Hd.
  destruct (Qeq_bool (dot x x) 0) eqn:Hz; [|done].
  apply Qeq_bool_iff in Hz. rewrite Hsxx in Hz.
  destruct (Qmult_integral _ _ Hz) as [Hz'|Hz']; [done|].
  by destruct (Qmult_integral _ _ Hz').
Qed.

Lemma polyfit1_never_insufficient (x y : list Q) :
  polyfit1 x y <> Raise InsufficientDataError.
Proof.
  unfold polyfit1.
  repeat match goal with
         | |- context [if ?b then _ else _] => destruct b
         end; simpl; discriminate.
Qed.

(** ** What [zero_noise_extrapolation] returns *)

(** C2: for scale factors holding at least two different values and
    expectation values lying on the line [y = m x + b], the fit returns a
    line [(m0, b0)] that minimises the sum of squared vertical residuals over
    all lines, and [zero_noise_extrapolation] returns its value at scale 0,
    the intercept [b0], which equals [b] (in exact arithmetic, hence within
    every tolerance).  The result is a function of the two lists alone. *)
Theorem C2_zne_exact_on_line (xs ys : list Q) (m b : Q) :
  two_distinct xs ->
  Forall2 (fun x y => y == m * x + b)%Q xs ys ->
  exists m0 b0,
    polyfit1 xs ys = Return (m0, b0) /\
    (forall m' b', (sse xs ys m0 b0 <= sse xs ys m' b')%Q) /\
    zero_noise_extrapolation xs ys = Return b0 /\
    (m0 * 0 + b0 == b)%Q.
Proof.
  intros Hdist Hline.
  pose proof (fit_det_distinct xs Hdist) as Hd.
  pose proof (Forall2_length _ _ _ Hline) as Hlen.
  destruct (polyfit1 xs ys) as [[m0 b0]|e] eqn:Hfit;
    [|by rewrite polyfit1_full_rank in Hfit].
  exists m0, b0. split; [done|]. split.
  { intros m' b'. by apply polyfit1_least_squares. }
  destruct (zne_exact_on_line xs ys m b Hdist Hline) as (v & Hv & Hvb).
  unfold zero_noise_extrapolation in *. rewrite Hfit in *. simpl in *.
  injection Hv as <-. split; [done|]. rewrite <- Hvb. ring.
Qed.

Lemma C2_zne_exact_on_line_witness :
  exists m0 b0,
    polyfit1 [1; 3 # 2; 2]%Q [1; 2; 3]%Q = Return (m0, b0) /\
    (forall m' b', (sse [1; 3 # 2; 2] [1; 2; 3] m0 b0
                    <= sse [1; 3 # 2; 2] [1; 2; 3] m' b')%Q) /\
    zero_noise_extrapolation [1; 3 # 2; 2]%Q [1; 2; 3]%Q = Return b0 /\
    (m0 * 0 + b0 == - 1)%Q.
Proof.
  apply (C2_zne_exact_on_line [1; 3 # 2; 2]%Q [1; 2; 3]%Q 2 (- 1)).
  - exists 0%nat, 1%nat, 1%Q, (3 # 2)%Q.
    split; [reflexivity|]. split; [reflexivity|]. discriminate.
  - repeat constructor.
Defined.

(** C5 (as stated, refuted): with the single scale factor [1.0] and the
    expectation value 0.9 the call does not fail; it returns 0.45. *)
Lemma C5_counterexample :
  zero_noise_extrapolation [1%Q] [(9 # 10)%Q] = Return (9 # 20)%Q /\
  ~ zne_rejects [1%Q] [(9 # 10)%Q].
Proof.
  split; [vm_compute; reflexivity|].
  unfold zne_rejects. vm_compute. discriminate.
Qed.

(** C5 (amended): [zero_noise_extrapolation] never raises
    [InsufficientDataError] and has no check on the number of different scale
    factors.  With a non-empty list of scale factors that are all the same
    non-zero value and as many expectation values, it returns half the mean
    expectation value (the minimum-norm solution of the rank-deficient
    fit); with an empty list it raises [TypeError]. *)
Theorem C5_zne_few_scales :
  (forall xs ys, zero_noise_extrapolation xs ys <> Raise InsufficientDataError) /\
  (forall ys, zero_noise_extrapolation [] ys = Raise TypeError) /\
  (forall (c : Q) xs ys,
     xs <> [] -> length xs = length ys ->
     Forall (fun x => x == c)%Q xs -> ~ (c == 0)%Q ->
     zero_noise_extrapolation xs ys
     = Return (sumQ ys / (2 * inject_Z (Z.of_nat (length xs))))%Q).
Proof.
  split; [|split].
  - intros xs ys. unfold zero_noise_extrapolation.
    pose proof (polyfit1_never_insufficient xs ys).
    destruct (polyfit1 xs ys) as [[m0 b0]|e]; [discriminate|].
    intros Heq. unfold mbind, outcome_bind in Heq. injection Heq as ->.
    by apply H0.
  - reflexivity.
  - intros c xs ys Hne Hlen Hall Hc. unfold zero_noise_extrapolation.
    by rewrite (polyfit1_rank_deficient xs ys c).
Qed.

Lemma C5_zne_few_scales_witness :
  zero_noise_extrapolation [1%Q] [(9 # 10)%Q]
  = Return ((9 # 10) / (2 * inject_Z (Z.of_nat 1)))%Q.
Proof.
  apply (proj2 (proj2 C5_zne_few_scales) 1%Q [1%Q] [(9 # 10)%Q]).
  - discriminate.
  - reflexivity.
  - repeat constructor.
  - discriminate.
Defined.

(** ** The simulation engine *)

(** A computation that does not raise [InvalidArgument]. *)
Lemma bind_not_invalid {A B} (o : outcome A) (k : A -> outcome B) :
  o <> Raise InvalidArgument ->
  (forall a, k a <> Raise InvalidArgument) ->
  o ≫= k <> Raise InvalidArgument.
Proof.
  intros Ho Hk. destruct o as [a|e]; simpl.
  - apply Hk.
  - intros [= ->]. by apply Ho.
Qed.

Lemma qubit_index_not_invalid qs q : qubit_index qs q <> Raise InvalidArgument.
Proof. unfold qubit_index. by destruct (list_find _ qs) as [[i q']|]. Qed.

Lemma qubit_indices_not_invalid qs operands :
  qubit_indices qs operands <> Raise InvalidArgument.
Proof.
  induction operands as [|q rest IH]; simpl; [done|].
  apply bind_not_invalid; [apply qubit_index_not_invalid|]. intros k.
  apply bind_not_invalid; [exact IH|]. by intros ks.
Qed.

Lemma apply_gate_not_invalid g ks : apply_gate g ks <> Raise InvalidArgument.
Proof.
  unfold apply_gate. destruct (negb _); [done|].
  destruct g; repeat (destruct ks as [|? ks]; try done).
Qed.

Lemma compile_operation_not_invalid qs op :
  compile_operation qs op <> Raise InvalidArgument.
Proof.
  unfold compile_operation.
  apply bind_not_invalid; [apply qubit_indices_not_invalid|]. intros ks.
  destruct (gate op); try done;
    (apply bind_not_invalid; [apply apply_gate_not_invalid|done]).
Qed.

Lemma compile_not_invalid circuit : compile circuit <> Raise InvalidArgument.
Proof.
  unfold compile. generalize (all_qubits circuit) as qs.
  intros qs. induction (all_operations circuit) as [|op rest IH]; simpl; [done|].
  apply bind_not_invalid; [apply compile_operation_not_invalid|]. intros s1.
  apply bind_not_invalid; [exact IH|]. by intros s2.
Qed.

Lemma sample_not_invalid k u rho : sample k u rho <> Raise InvalidArgument.
Proof. unfold sample. by destruct (negb _). Qed.

Lemma run_steps_not_invalid steps rng rho i rec :
  run_steps steps rng rho i rec <> Raise InvalidArgument.
Proof.
  revert rho i rec. induction steps as [|[f|key k] rest IH];
    intros rho i rec; simpl; [done|apply IH|].
  apply bind_not_invalid; [apply sample_not_invalid|]. intros [b rho'].
  apply IH.
Qed.

Lemma repeat_runs_not_invalid n steps nq rng i res :
  repeat_runs n steps nq rng i res <> Raise InvalidArgument.
Proof.
  revert i res. induction n as [|n IH]; intros i res; simpl; [done|].
  apply bind_not_invalid; [apply run_steps_not_invalid|]. intros [rec i'].
  apply IH.
Qed.

(** C6: [Simulator.run] with [repetitions < 1] (0 in particular) fails with
    [InvalidArgument], whatever the circuit; with [repetitions >= 1] it does
    not raise this error. *)
Theorem C6_run_repetitions (circuit : Moments) (repetitions : Z)
    (rng : nat -> Q) :
  (repetitions < 1 -> run circuit repetitions rng = Raise InvalidArgument) /\
  (1 <= repetitions -> run circuit repetitions rng <> Raise InvalidArgument).
Proof.
  unfold run. split; intros Hr.
  - by rewrite (proj2 (Z.ltb_lt _ _) Hr).
  - rewrite (proj2 (Z.ltb_ge _ _) Hr).
    apply bind_not_invalid; [apply compile_not_invalid|]. intros steps.
    apply repeat_runs_not_invalid.
Qed.

Lemma C6_run_repetitions_witness :
  run bell_moments 0 (fun _ => 1 # 3)%Q = Raise InvalidArgument /\
  run bell_moments 1 (fun _ => 1 # 3)%Q <> Raise InvalidArgument.
Proof.
  split.
  - apply (proj1 (C6_run_repetitions bell_moments 0 (fun _ => 1 # 3)%Q)). lia.
  - apply (proj2 (C6_run_repetitions bell_moments 1 (fun _ => 1 # 3)%Q)). lia.
Defined.

(** ** The Bell pair *)

Lemma create_test_circuit_run (h : heap) :
  create_test_circuit q0 q1 h
  = (Return (fresh (dom h)), <[fresh (dom h) := bell_moments]> h).
Proof.
  unfold create_test_circuit.
  erewrite bind_return by reflexivity.
  erewrite bind_return
    by (unfold Circuit_append_ops; rewrite lookup_insert_eq; reflexivity).
  erewrite bind_return
    by (unfold Circuit_append_ops; rewrite lookup_insert_eq; reflexivity).
  simpl. by rewrite !insert_insert_eq.
Qed.

(** C8: the circuit that [create_test_circuit] builds (Hadamard on the first
    qubit, then CNOT from the first to the second, both measured) has the
    exact outcome distribution [{(0,0): 1/2, (1,1): 1/2}]; the outcomes (0,1)
    and (1,0) have probability zero. *)
Theorem C8_bell_distribution (h : heap) :
  exists c h' d,
    create_test_circuit q0 q1 h = (Return c, h') /\
    h' !! c = Some bell_moments /\
    exact_distribution bell_moments = Return d /\
    d = {[ [false; false] := (1 # 2)%Q; [true; true] := (1 # 2)%Q ]} /\
    mass d [false; true] = 0%Q /\ mass d [true; false] = 0%Q.
Proof.
  eexists _, _, _. split; [apply create_test_circuit_run|].
  split; [apply lookup_insert_eq|].
  split; [vm_compute; reflexivity|].
  split; [reflexivity|]. split; reflexivity.
Qed.

(** ** The half adder *)

(** C7: for input bits [a], [b] in {0, 1}, [add_two_bits] (inputs prepared
    with X gates, two CNOTs onto the sum qubit, one CCNOT onto the carry
    qubit, both targets starting at 0, one repetition) returns
    [(a XOR b, a AND b)] whatever the simulator's random source draws; the
    outcome distribution of the circuit has all its mass on that pair.  On
    its own, CCNOT on a target at 0 leaves the target at [x AND y] for
    controls prepared at [x], [y]: the target flips iff both controls
    are 1. *)
Theorem C7_half_adder (a b : Z) (rng : nat -> Q) :
  is_bit a -> is_bit b ->
  add_two_bits a b rng = Return (Z.lxor a b, Z.land a b) /\
  exact_distribution (full_circuit a b)
  = Return {[ [Z.lxor a b =? 1; Z.land a b =? 1] := 1%Q ]} /\
  exact_distribution (toffoli_circuit (a =? 1) (b =? 1))
  = Return {[ [(a =? 1) && (b =? 1)] := 1%Q ]}.
Proof.
  intros [-> | ->] [-> | ->]; (split; [|split]); vm_compute; reflexivity.
Qed.

Lemma C7_half_adder_witness :
  add_two_bits 1 1 (fun _ => 1 # 3)%Q = Return (Z.lxor 1 1, Z.land 1 1) /\
  exact_distribution (full_circuit 1 1)
  = Return {[ [Z.lxor 1 1 =? 1; Z.land 1 1 =? 1] := 1%Q ]} /\
  exact_distribution (toffoli_circuit (1 =? 1) (1 =? 1))
  = Return {[ [(1 =? 1) && (1 =? 1)] := 1%Q ]}.
Proof.
  apply (C7_half_adder 1 1 (fun _ => 1 # 3)%Q); right; reflexivity.
Defined.

(** ** The BB84 loop *)

Lemma measured_bit_same_basis (bit basis : Z) (rng : nat -> Q) :
  is_bit bit -> is_bit basis ->
  measured_bit bit basis basis rng = Return bit /\
  exact_distribution (round_circuit bit basis basis)
  = Return {[ [bit =? 1] := 1%Q ]}.
Proof. intros [-> | ->] [-> | ->]; split; vm_compute; reflexivity. Qed.

Lemma measured_bit_returns (bit ab bb : Z) (rng : nat -> Q) :
  is_bit bit -> is_bit ab -> is_bit bb ->
  is_raise (measured_bit bit ab bb rng) = false.
Proof. intros [-> | ->] [-> | ->] [-> | ->]; vm_compute; reflexivity. Qed.

Lemma bb84_loop_sifted (rounds : list nat) alice_bits alice_bases bob_bases
    rngs key :
  Forall is_bit alice_bits -> Forall is_bit alice_bases ->
  Forall is_bit bob_bases ->
  Forall (fun i => (i < length alice_bits)%nat /\ (i < length alice_bases)%nat
                   /\ (i < length bob_bases)%nat) rounds ->
  bb84_loop rounds alice_bits alice_bases bob_bases rngs key
  = Return (key ++ sifted rounds alice_bits alice_bases bob_bases).
Proof.
  intros Hbits Hab Hbb Hrounds. revert key.
  induction Hrounds as [|i rounds (Hi1 & Hi2 & Hi3) _ IH]; intros key; simpl.
  - by rewrite app_nil_r.
  - destruct (lookup_lt_is_Some_2 _ _ Hi1) as [bit Ebit].
    destruct (lookup_lt_is_Some_2 _ _ Hi2) as [ab Eab].
    destruct (lookup_lt_is_Some_2 _ _ Hi3) as [bb Ebb].
    unfold index. rewrite Ebit, Eab, Ebb. simpl.
    pose proof (Forall_lookup_1 _ _ _ _ Hbits Ebit) as Hbit.
    pose proof (Forall_lookup_1 _ _ _ _ Hab Eab) as Hab'.
    pose proof (Forall_lookup_1 _ _ _ _ Hbb Ebb) as Hbb'.
    destruct (Z.eqb_spec ab bb) as [<- | Hne].
    + rewrite (proj1 (measured_bit_same_basis bit ab (rngs i) Hbit Hab')).
      simpl. rewrite IH. by rewrite <- app_assoc.
    + pose proof (measured_bit_returns bit ab bb (rngs i) Hbit Hab' Hbb') as Hr.
      destruct (measured_bit bit ab bb (rngs i)) as [m|e]; [|discriminate Hr].
      simpl. by rewrite IH.
Qed.

(** C10: with arrays of [num_bits] bits, in every round whose two bases are
    equal the measured bit is Alice's bit whatever the simulator draws, and
    the outcome distribution of the round's circuit has all its mass on that
    bit; the loop ends with the key made of Alice's bits of exactly those
    rounds, in order. *)
Theorem C10_bb84_key (alice_bits alice_bases bob_bases : list Z)
    (rngs : nat -> nat -> Q) :
  length alice_bits = num_bits -> length alice_bases = num_bits ->
  length bob_bases = num_bits ->
  Forall is_bit alice_bits -> Forall is_bit alice_bases ->
  Forall is_bit bob_bases ->
  (forall i bit basis rng,
     alice_bits !! i = Some bit -> alice_bases !! i = Some basis ->
     bob_bases !! i = Some basis ->
     measured_bit bit basis basis rng = Return bit /\
     exact_distribution (round_circuit bit basis basis)
     = Return {[ [bit =? 1] := 1%Q ]}) /\
  bb84 alice_bits alice_bases bob_bases rngs
  = Return (sifted (seq 0 num_bits) alice_bits alice_bases bob_bases).
Proof.
  intros L1 L2 L3 Hbits Hab Hbb. split.
  - intros i bit basis rng Ebit Eab _.
    apply measured_bit_same_basis.
    + exact (Forall_lookup_1 _ _ _ _ Hbits Ebit).
    + exact (Forall_lookup_1 _ _ _ _ Hab Eab).
  - unfold bb84. rewrite bb84_loop_sifted; [done..|].
    apply Forall_forall. intros i Hi. apply elem_of_seq in Hi. lia.
Qed.

Lemma C10_bb84_key_witness :
  (forall i bit basis rng,
     sample_alice_bits !! i = Some bit -> sample_alice_bases !! i = Some basis ->
     sample_bob_bases !! i = Some basis ->
     measured_bit bit basis basis rng = Return bit /\
     exact_distribution (round_circuit bit basis basis)
     = Return {[ [bit =? 1] := 1%Q ]}) /\
  bb84 sample_alice_bits sample_alice_bases sample_bob_bases sample_rngs
  = Return (sifted (seq 0 num_bits)
              sample_alice_bits sample_alice_bases sample_bob_bases).
Proof.
  apply (C10_bb84_key sample_alice_bits sample_alice_bases sample_bob_bases
           sample_rngs); try reflexivity;
    repeat (apply Forall_cons_2 || apply Forall_nil_2);
    first [left; reflexivity | right; reflexivity].
Defined.

Example bb84_sample_key :
  bb84 sample_alice_bits sample_alice_bases sample_bob_bases sample_rngs
  = Return [1; 1; 0; 0; 0].
Proof. vm_compute. reflexivity. Qed.

(** * Further properties of the scripts *)

(** ** When [scale_noise] returns and when it raises *)

Lemma invertibleb_true op : invertibleb op = true -> invertible op.
Proof.
  unfold invertibleb, invertible. destruct (inverse op) as [i|e]; [eauto|done].
Qed.

Lemma invertibleb_false op :
  invertibleb op = false -> inverse op = Raise TypeError.
Proof. unfold invertibleb, inverse. by destruct (gate op). Qed.

Lemma forallb_invertible (m : Moment) :
  forallb invertibleb m = true -> Forall invertible m.
Proof.
  intros Hm. apply Forall_forall. intros op Hop.
  apply invertibleb_true. apply (proj1 (forallb_forall _ _) Hm).
  by apply list_elem_of_In.
Qed.

Lemma fold_op_raises r op (h : heap) cur :
  h !! r = Some cur -> invertibleb op = false ->
  fold_op r op h = (Raise TypeError, <[r := append_op cur op]> h).
Proof.
  intros Hr Hop. unfold fold_op.
  erewrite bind_return by (by apply appends_append).
  erewrite bind_raise; [reflexivity|].
  unfold lift. by rewrite (invertibleb_false op Hop).
Qed.

Lemma fold_moment_raises r (m : Moment) (h : heap) cur :
  h !! r = Some cur -> forallb invertibleb m = false ->
  exists h', for_each m (fold_op r) h = (Raise TypeError, h').
Proof.
  revert h cur. induction m as [|op m IH]; intros h cur Hr Hm; [done|].
  simpl in Hm. simpl. destruct (invertibleb op) eqn:Hop.
  - erewrite bind_return
      by (by apply appends_fold_op; [apply invertibleb_true|]).
    eapply IH; [apply lookup_insert_eq|done].
  - erewrite bind_raise by (by apply fold_op_raises). eauto.
Qed.

Lemma scale_moment_raises r s (m : Moment) (h : heap) cur :
  h !! r = Some cur -> has_measurement m = false ->
  range_len (num_folds s) <> 0%nat -> forallb invertibleb m = false ->
  exists h', scale_moment r s m h = (Raise TypeError, h').
Proof.
  intros Hr Hmeas Hn Hm. unfold scale_moment. rewrite Hmeas. simpl.
  erewrite bind_return by (by apply appends_append).
  destruct (range_len (num_folds s)) as [|n]; [done|]. simpl.
  destruct (fold_moment_raises r m _ _
              (lookup_insert_eq h r (append_item cur (IMoment m))) Hm)
    as [h' Hraise].
  erewrite bind_raise by exact Hraise. eauto.
Qed.

Lemma appends_scale_moment_code r s (m : Moment) :
  has_measurement m || Nat.eqb (range_len (num_folds s)) 0
    || forallb invertibleb m = true ->
  appends (scale_moment r s m) r (emitted_code s m).
Proof.
  intros Hok. unfold scale_moment, emitted_code.
  destruct (has_measurement m) eqn:Hmeas; simpl.
  - apply appends_append.
  - apply (appends_seq _ _ r [IMoment m]); [apply appends_append|].
    simpl in Hok. apply orb_true_iff in Hok as [Hz|Hinv].
    + apply Nat.eqb_eq in Hz. rewrite Hz. apply appends_ret.
    + apply appends_for_range, appends_for_each.
      eapply Forall_impl; [exact (forallb_invertible m Hinv)|].
      intros op. apply appends_fold_op.
Qed.

(** The folding loop over the moments: it runs to the end when no fold is
    asked for or the circuit is foldable, and raises [TypeError]
    otherwise. *)
Lemma scale_loop_run r s (ms : Moments) (h : heap) cur :
  h !! r = Some cur ->
  if Nat.eqb (range_len (num_folds s)) 0 || foldableb ms
  then for_each ms (scale_moment r s) h
       = (Return tt,
          <[r := fold_left append_item (flat_map (emitted_code s) ms) cur]> h)
  else exists h', for_each ms (scale_moment r s) h = (Raise TypeError, h').
Proof.
  revert h cur. induction ms as [|m ms IH]; intros h cur Hr.
  - rewrite orb_true_r. simpl. by rewrite insert_id.
  - destruct (has_measurement m || Nat.eqb (range_len (num_folds s)) 0
              || forallb invertibleb m) eqn:Hok.
    + pose proof (appends_scale_moment_code r s m Hok h cur Hr) as Hm.
      specialize (IH _ _ (lookup_insert_eq h r
        (fold_left append_item (emitted_code s m) cur))).
      assert (Hcond : Nat.eqb (range_len (num_folds s)) 0 || foldableb (m :: ms)
                      = Nat.eqb (range_len (num_folds s)) 0 || foldableb ms).
      { simpl. destruct (Nat.eqb (range_len (num_folds s)) 0); [done|].
        rewrite orb_false_r in Hok. simpl. by rewrite Hok. }
      rewrite Hcond.
      destruct (Nat.eqb (range_len (num_folds s)) 0 || foldableb ms).
      * simpl. erewrite bind_return by exact Hm. rewrite IH.
        by rewrite insert_insert_eq, fold_left_app.
      * destruct IH as [h' IH]. simpl.
        erewrite bind_return by exact Hm. eauto.
    + apply orb_false_iff in Hok as [Hok Hinv].
      apply orb_false_iff in Hok as [Hmeas Hz].
      rewrite Hz. simpl. rewrite Hmeas, Hinv. simpl.
      apply Nat.eqb_neq in Hz.
      destruct (scale_moment_raises r s m h cur Hr Hmeas Hz Hinv) as [h' Hm].
      erewrite bind_raise by exact Hm. eauto.
Qed.

Lemma scale_noise_code_run (h : heap) c (ms : Moments) s :
  h !! c = Some ms ->
  if Qeq_bool s 1 then scale_noise c s h = (Return c, h)
  else if Nat.eqb (range_len (num_folds s)) 0 || foldableb ms
  then scale_noise c s h
       = (Return (fresh (dom h)),
          <[fresh (dom h) := build (flat_map (emitted_code s) ms)]> h)
  else exists h', scale_noise c s h = (Raise TypeError, h').
Proof.
  intros Hc. unfold scale_noise.
  destruct (Qeq_bool s 1) eqn:Hone; [done|].
  set (r := fresh (dom h)).
  assert (Hr : h !! r = None) by (apply not_elem_of_dom; apply is_fresh).
  assert (Hne : r <> c) by (intros ->; congruence).
  pose proof (scale_loop_run r s ms (<[r := []]> h) []
                (lookup_insert_eq _ _ _)) as Hloop.
  assert (Hread : Circuit_moments c (<[r := []]> h)
                  = (Return ms, <[r := []]> h)).
  { unfold Circuit_moments. rewrite lookup_insert_ne by done. by rewrite Hc. }
  destruct (Nat.eqb (range_len (num_folds s)) 0 || foldableb ms).
  - erewrite bind_return by reflexivity. fold r.
    erewrite bind_return by exact Hread.
    erewrite bind_return by exact Hloop.
    simpl. by rewrite insert_insert_eq.
  - destruct Hloop as [h' Hloop].
    erewrite bind_return by reflexivity. fold r.
    erewrite bind_return by exact Hread.
    erewrite bind_raise by exact Hloop. eauto.
Qed.

Lemma range_len_num_folds_pos (s : Q) :
  Nat.eqb (range_len (num_folds s)) 0 = negb (0 <? num_folds s).
Proof.
  unfold range_len. destruct (Z.ltb_spec 0 (num_folds s)); simpl.
  - apply Nat.eqb_neq. lia.
  - apply Nat.eqb_eq. lia.
Qed.

Lemma num_folds_small (s : Q) : (s < 3 # 2)%Q -> num_folds s <= 0.
Proof.
  destruct s as [n d]. unfold Qlt, num_folds, int. simpl. intros Hs.
  assert (Hlt : (n * 1 + - (1) * Z.pos d) * 2 < Z.pos (d * 1 * 1)) by lia.
  revert Hlt. generalize ((n * 1 + - (1) * Z.pos d) * 2) as x.
  generalize (Z.pos (d * 1 * 1)) (Pos2Z.is_pos (d * 1 * 1)).
  intros y Hy x Hx. destruct (Z.le_gt_cases 0 x) as [Hx0|Hx0].
  - rewrite Z.quot_small by lia. lia.
  - apply Z.quot_le_upper_bound; lia.
Qed.

(** X1: [scale_noise] on a circuit of the store returns the input object at
    scale 1.0; otherwise it raises [TypeError] exactly when a fold is asked
    for ([num_folds > 0]) and some measurement-free moment holds an
    operation without inverse, and returns a newly allocated circuit in
    every other case. *)
Theorem X1_scale_noise_outcome (h : heap) (c : loc) (ms : Moments) (s : Q) :
  h !! c = Some ms ->
  (scale_noise c s h).1 =
    if Qeq_bool s 1 then Return c
    else if (0 <? num_folds s) && negb (foldableb ms) then Raise TypeError
    else Return (fresh (dom h)).
Proof.
  intros Hc. pose proof (scale_noise_code_run h c ms s Hc) as Hrun.
  destruct (Qeq_bool s 1); [by rewrite Hrun|].
  rewrite range_len_num_folds_pos in Hrun.
  destruct (0 <? num_folds s); simpl in *.
  - destruct (foldableb ms); simpl in *; [by rewrite Hrun|].
    destruct Hrun as [h' Hrun]. by rewrite Hrun.
  - by rewrite Hrun.
Qed.

Lemma X1_scale_noise_outcome_witness :
  (scale_noise noisy_loc (3 # 2) noisy_store.2).1 =
    if Qeq_bool (3 # 2) 1 then Return noisy_loc
    else if (0 <? num_folds (3 # 2))
            && negb (foldableb
                 [[on H [q0]]; [on (depolarize (1 # 20)) [q0]];
                  [on CNOT [q0; q1]];
                  [on (depolarize (1 # 20)) [q0];
                   on (depolarize (1 # 20)) [q1]];
                  [measure q0 "q0"; measure q1 "q1"]])
    then Raise TypeError
    else Return (fresh (dom noisy_store.2)).
Proof.
  apply (X1_scale_noise_outcome noisy_store.2 noisy_loc).
  vm_compute. reflexivity.
Defined.

(** X2: the scale factor is not validated.  For every scale factor below
    1.5 other than 1.0 (values below 1 and negative values included)
    [scale_noise] returns a newly allocated circuit with exactly the moments
    of the input, whatever the circuit holds. *)
Theorem X2_scale_noise_below_fold (h : heap) (c : loc) (ms : Moments) (s : Q) :
  h !! c = Some ms -> (s < 3 # 2)%Q -> Qeq_bool s 1 = false ->
  scale_noise c s h
  = (Return (fresh (dom h)), <[fresh (dom h) := ms]> h).
Proof.
  intros Hc Hs Hone. pose proof (scale_noise_code_run h c ms s Hc) as Hrun.
  rewrite Hone in Hrun.
  assert (Hz : range_len (num_folds s) = 0%nat)
    by (pose proof (num_folds_small s Hs); unfold range_len; lia).
  rewrite Hz in Hrun. simpl in Hrun. rewrite Hrun. do 2 f_equal.
  assert (Hem : flat_map (emitted_code s) ms = map IMoment ms).
  { clear -Hz. induction ms as [|m ms IH]; [done|]. simpl. rewrite IH.
    unfold emitted_code. rewrite Hz. by destruct (has_measurement m). }
  rewrite Hem. unfold build. by rewrite fold_left_append_moments.
Qed.

Lemma X2_scale_noise_below_fold_witness :
  scale_noise noisy_loc (1 # 2) noisy_store.2
  = (Return (fresh (dom noisy_store.2)),
     <[fresh (dom noisy_store.2) :=
         [[on H [q0]]; [on (depolarize (1 # 20)) [q0]];
          [on CNOT [q0; q1]];
          [on (depolarize (1 # 20)) [q0]; on (depolarize (1 # 20)) [q1]];
          [measure q0 "q0"; measure q1 "q1"]]]> noisy_store.2).
Proof.
  apply (X2_scale_noise_below_fold noisy_store.2 noisy_loc).
  - vm_compute. reflexivity.
  - reflexivity.
  - reflexivity.
Defined.

(** ** [add_noise_to_circuit] *)

Lemma appends_noise_body r p (m : Moment) :
  appends
    (for_each m (fun op =>
       if negb (is_measurement op) then
         for_each (qubits op) (fun qubit =>
           Circuit_append r (IOp (on (depolarize p) [qubit])))
       else mret tt))
    r (map IOp (noise_ops p m)).
Proof.
  assert (Heq : map IOp (noise_ops p m)
    = flat_map (fun op => if is_measurement op then []
                          else flat_map (fun q => [IOp (on (depolarize p) [q])])
                                 (qubits op)) m).
  { unfold noise_ops. induction m as [|op m IH]; [done|]. simpl.
    rewrite map_app, IH. f_equal. destruct (is_measurement op); [done|].
    clear. induction (qubits op) as [|q qs IH]; [done|]. simpl. by rewrite IH. }
  rewrite Heq. apply appends_for_each. apply Forall_forall. intros op _.
  destruct (is_measurement op); simpl; [apply appends_ret|].
  apply appends_for_each. apply Forall_forall. intros q _.
  apply appends_append.
Qed.

Lemma add_noise_run (h : heap) c (ms : Moments) p :
  h !! c = Some ms ->
  add_noise_to_circuit c p h
  = (Return (fresh (dom h)),
     <[fresh (dom h) := build (flat_map (noise_emitted p) ms)]> h).
Proof.
  intros Hc. unfold add_noise_to_circuit.
  set (r := fresh (dom h)).
  assert (Hr : h !! r = None) by (apply not_elem_of_dom; apply is_fresh).
  assert (Hne : r <> c) by (intros ->; congruence).
  erewrite bind_return by reflexivity. fold r.
  erewrite bind_return; cycle 1.
  { unfold Circuit_moments. rewrite lookup_insert_ne by done.
    rewrite Hc. reflexivity. }
  erewrite bind_return; cycle 1.
  { apply (appends_for_each ms _ r (noise_emitted p)); [|apply lookup_insert_eq].
    apply Forall_forall. intros m _.
    apply (appends_seq _ _ r [IMoment m]); [apply appends_append|].
    apply appends_noise_body. }
  simpl. by rewrite insert_insert_eq.
Qed.

(** Operations on pairwise disjoint qubits that the moment [L] stops, and
    that record nothing, gather in one moment after [L]. *)
Lemma gather_join (rest done : Moment) (pre : Moments) (L : Moment) :
  NoDup (flat_map qubits (done ++ rest)) ->
  Forall (fun o => measurement_keys o = [] /\ blocks L o = true) rest ->
  fold_left append_item (map IOp rest) (pre ++ [L; done])
  = pre ++ [L; done ++ rest].
Proof.
  revert done. induction rest as [|o rest IH]; intros done Hnd Hrest.
  - simpl. by rewrite app_nil_r.
  - apply Forall_cons in Hrest as [[Hkeys HL] Hrest].
    assert (Hdone : blocks done o = false).
    { apply blocks_disjoint; [|done]. intros o' q Ho' Hq Hq'.
      rewrite flat_map_app in Hnd. apply NoDup_app in Hnd as (_ & Hd & _).
      apply (Hd q).
      - apply list_elem_of_In, in_flat_map. exists o'.
        split; by apply list_elem_of_In.
      - simpl. apply elem_of_app. by left. }
    cbn [map fold_left append_item].
    rewrite (append_op_join pre L done [] o) by (done || constructor).
    rewrite (IH (done ++ [o])); [|by rewrite <- app_assoc|done].
    by rewrite <- app_assoc.
Qed.

Lemma gather_after (ops : Moment) (pre : Moments) (L : Moment) :
  NoDup (flat_map qubits ops) ->
  Forall (fun o => measurement_keys o = [] /\ blocks L o = true) ops ->
  fold_left append_item (map IOp ops) (pre ++ [L])
  = pre ++ L :: match ops with [] => [] | _ => [ops] end.
Proof.
  intros Hnd Hops. destruct ops as [|o rest]; [done|].
  pose proof Hops as Hops'. apply Forall_cons in Hops' as [[Hkeys HL] Hrest].
  cbn [map fold_left append_item].
  rewrite append_op_new by done.
  by rewrite (gather_join rest [o] pre L).
Qed.

Lemma noise_ops_qubits p (m : Moment) q :
  q ∈ flat_map qubits (noise_ops p m) ->
  exists op, op ∈ m /\ is_measurement op = false /\ q ∈ qubits op.
Proof.
  unfold noise_ops. induction m as [|op m IH]; simpl; [by intros ?%elem_of_nil|].
  rewrite flat_map_app. intros [Hq|Hq]%elem_of_app.
  - destruct (is_measurement op) eqn:Hm; [by apply elem_of_nil in Hq|].
    exists op. split; [by left|]. split; [done|].
    clear -Hq. induction (qubits op) as [|q' qs IH]; [done|].
    simpl in Hq. apply elem_of_cons in Hq as [->|Hq]; [by left|].
    right. by apply IH.
  - destruct (IH Hq) as (op' & Hop' & Hm & Hq'). exists op'.
    split; [by right|done].
Qed.

Lemma noise_ops_NoDup p (m : Moment) :
  NoDup (flat_map qubits m) -> NoDup (flat_map qubits (noise_ops p m)).
Proof.
  induction m as [|op m IH]; intros Hnd; [constructor|].
  simpl in Hnd. apply NoDup_app in Hnd as (Hop & Hdis & Hm).
  unfold noise_ops. simpl. rewrite flat_map_app. apply NoDup_app.
  split; [|split; [|by apply IH]].
  - destruct (is_measurement op); [constructor|].
    clear -Hop. induction (qubits op) as [|q qs IH]; [constructor|].
    simpl. apply NoDup_cons in Hop as [Hq Hqs]. apply NoDup_cons.
    split; [|by apply IH]. intros Hin. apply Hq. clear -Hin.
    induction qs as [|q' qs IH]; [done|].
    simpl in Hin. apply elem_of_cons in Hin as [->|Hin]; [by left|].
    right. by apply IH.
  - intros q Hq Hq'. fold (noise_ops p m) in Hq'.
    destruct (noise_ops_qubits p m q Hq') as (op' & Hop' & _ & Hqop').
    apply (Hdis q).
    + destruct (is_measurement op); [by apply elem_of_nil in Hq|].
      clear -Hq. induction (qubits op) as [|q' qs IH]; [done|].
      simpl in Hq. apply elem_of_cons in Hq as [->|Hq]; [by left|].
      right. by apply IH.
    + apply list_elem_of_In, in_flat_map. exists op'.
      split; by apply list_elem_of_In.
Qed.

Lemma noise_ops_blocked p (m : Moment) :
  Forall (fun o => measurement_keys o = [] /\ blocks m o = true)
    (noise_ops p m).
Proof.
  apply Forall_forall. intros o Ho.
  assert (Hform : exists q, o = on (depolarize p) [q]).
  { unfold noise_ops in Ho. apply list_elem_of_In, in_flat_map in Ho
      as (op & _ & Ho).
    destruct (is_measurement op); [done|].
    apply in_map_iff in Ho as (q & <- & _). eauto. }
  destruct Hform as [q ->]. split; [done|].
  assert (Hq : q ∈ flat_map qubits (noise_ops p m)).
  { apply list_elem_of_In, in_flat_map. exists (on (depolarize p) [q]).
    split; [by apply list_elem_of_In|by left]. }
  destruct (noise_ops_qubits p m q Hq) as (op & Hop & _ & Hqop).
  apply (blocks_intro m _ op q); [done| |done]. simpl. by left.
Qed.

Lemma build_noise_moments p (ms : Moments) :
  Forall (fun m => NoDup (flat_map qubits m)) ms ->
  build (flat_map (noise_emitted p) ms) = flat_map (noisy_moments p) ms.
Proof.
  intros Hms. unfold build.
  change (flat_map (noisy_moments p) ms)
    with ([] ++ flat_map (noisy_moments p) ms).
  generalize (@nil Moment) as cur.
  induction Hms as [|m ms Hm _ IH]; intros cur; simpl.
  - by rewrite app_nil_r.
  - unfold append_moment.
    rewrite fold_left_app, gather_after
      by first [by apply noise_ops_NoDup | apply noise_ops_blocked].
    rewrite IH. unfold noisy_moments.
    destruct (noise_ops p m); by rewrite <- app_assoc.
Qed.




(** X4: where the operations of each moment act on pairwise disjoint
    qubits, [add_noise_to_circuit] keeps every moment of the input whole and
    in order, and puts the channels of a moment together in one new moment
    right after it; a moment with nothing but measurements (or empty) gets
    no noise moment. *)
Theorem X4_add_noise_moments (h : heap) (c : loc) (ms : Moments) (p : Q) :
  h !! c = Some ms -> (0 <= p)%Q -> (p <= 1)%Q ->
  Forall (fun m => NoDup (flat_map qubits m)) ms ->
  exists r h',
    add_noise_to_circuit c p h = (Return r, h') /\
    h' !! r = Some (flat_map (noisy_moments p) ms).
Proof.
  intros Hc _ _ Hms. eexists _, _. split; [by apply add_noise_run|].
  rewrite lookup_insert_eq. by rewrite build_noise_moments.
Qed.

Lemma bell_disjoint : Forall (fun m => NoDup (flat_map qubits m)) bell_moments.
Proof.
  repeat apply Forall_cons_2; try apply Forall_nil_2;
    apply (bool_decide_unpack _); vm_compute; exact I.
Qed.

Lemma X4_add_noise_moments_witness :
  exists r h',
    add_noise_to_circuit bell_loc (1 # 20) bell_store.2 = (Return r, h') /\
    h' !! r = Some (flat_map (noisy_moments (1 # 20)) bell_moments).
Proof.
  apply (X4_add_noise_moments bell_store.2 bell_loc bell_moments (1 # 20)).
  - vm_compute. reflexivity.
  - discriminate.
  - discriminate.
  - exact bell_disjoint.
Defined.

Lemma noise_ops_form p (m : Moment) o :
  o ∈ noise_ops p m -> exists q, o = on (depolarize p) [q].
Proof.
  intros Ho. unfold noise_ops in Ho.
  apply list_elem_of_In, in_flat_map in Ho as (op & _ & Ho).
  destruct (is_measurement op); [done|].
  apply in_map_iff in Ho as (q & <- & _). eauto.
Qed.

Lemma noise_moment_unfoldable p (m : Moment) :
  noise_ops p m <> [] ->
  has_measurement (noise_ops p m) || forallb invertibleb (noise_ops p m)
  = false.
Proof.
  intros Hne. apply orb_false_intro.
  - apply not_true_is_false. intros Hex. unfold has_measurement in Hex.
    apply existsb_exists in Hex as (o & Ho & Hmeas).
    apply list_elem_of_In in Ho.
    by destruct (noise_ops_form p m o Ho) as [q ->].
  - destruct (noise_ops p m) as [|o rest] eqn:E; [done|].
    assert (Ho : o ∈ noise_ops p m) by (rewrite E; left).
    by destruct (noise_ops_form p m o Ho) as [q ->].
Qed.

Lemma noise_ops_nonempty p (m : Moment) :
  Exists (fun op => is_measurement op = false /\ qubits op <> []) m ->
  noise_ops p m <> [].
Proof.
  unfold noise_ops. induction 1 as [op m [Hm Hq]|op m _ IH]; simpl.
  - rewrite Hm. destruct (qubits op); [done|]. done.
  - intros Happ. apply app_eq_nil in Happ as [_ Happ]. by apply IH.
Qed.

Lemma foldableb_app (a b : Moments) :
  foldableb (a ++ b) = foldableb a && foldableb b.
Proof. unfold foldableb. apply forallb_app. Qed.

Lemma noisy_unfoldable p (ms : Moments) :
  Exists (Exists (fun op => is_measurement op = false /\ qubits op <> [])) ms ->
  foldableb (flat_map (noisy_moments p) ms) = false.
Proof.
  induction 1 as [m ms Hm|m ms _ IH]; simpl; rewrite foldableb_app.
  - apply andb_false_intro1. unfold noisy_moments.
    pose proof (noise_ops_nonempty p m Hm) as Hne.
    pose proof (noise_moment_unfoldable p m Hne) as Hbad.
    destruct (noise_ops p m) as [|o rest]; [done|].
    remember (o :: rest) as N eqn:EN in *.
    change [m; N] with ([m] ++ [N]). rewrite foldableb_app.
    apply andb_false_intro2. unfold foldableb. simpl. by rewrite Hbad.
  - apply andb_false_intro2. exact IH.
Qed.

Lemma scale_ge_not_one (s : Q) : (3 # 2 <= s)%Q -> Qeq_bool s 1 = false.
Proof.
  intros Hs. apply not_true_is_false. intros Hone.
  apply Qeq_bool_iff in Hone. rewrite Hone in Hs. by apply Hs.
Qed.

Lemma scale_ge_folds (s : Q) :
  (3 # 2 <= s)%Q -> Nat.eqb (range_len (num_folds s)) 0 = false.
Proof.
  intros Hs. apply Nat.eqb_neq.
  rewrite num_folds_floor by (apply (Qle_trans _ (3 # 2)); [done|exact Hs]).
  pose proof (floor_folds_ge s Hs). lia.
Qed.

(** X5: adding noise and then folding, as the script's [main] does, cannot
    work: for every circuit with well-formed moments that holds at least one
    operation other than a measurement (on at least one qubit), the noisy
    circuit folded at any scale factor of 1.5 or more raises [TypeError]. *)
Theorem X5_noise_then_fold_raises (h : heap) (c : loc) (ms : Moments)
    (p s : Q) :
  h !! c = Some ms -> (0 <= p)%Q -> (p <= 1)%Q ->
  Forall (fun m => NoDup (flat_map qubits m)) ms ->
  Exists (Exists (fun op => is_measurement op = false /\ qubits op <> [])) ms ->
  (3 # 2 <= s)%Q ->
  ((noisy_circuit ← add_noise_to_circuit c p;
    scale_noise noisy_circuit s) h).1 = Raise TypeError.
Proof.
  intros Hc _ _ Hms Hgate Hs.
  erewrite bind_return by (by apply add_noise_run).
  rewrite build_noise_moments by done.
  set (h1 := <[fresh (dom h) := flat_map (noisy_moments p) ms]> h).
  pose proof (scale_noise_code_run h1 (fresh (dom h))
                (flat_map (noisy_moments p) ms) s
                (lookup_insert_eq _ _ _)) as Hrun.
  rewrite scale_ge_not_one, scale_ge_folds, noisy_unfoldable in Hrun by done.
  simpl in Hrun. destruct Hrun as [h' Hrun]. by rewrite Hrun.
Qed.

Lemma bell_has_gate :
  Exists (Exists (fun op => is_measurement op = false /\ qubits op <> []))
    bell_moments.
Proof. apply Exists_cons_hd, Exists_cons_hd. by split. Qed.

Lemma X5_noise_then_fold_raises_witness :
  ((noisy_circuit ← add_noise_to_circuit bell_loc (1 # 20);
    scale_noise noisy_circuit (3 # 2)) bell_store.2).1 = Raise TypeError.
Proof.
  apply (X5_noise_then_fold_raises bell_store.2 bell_loc bell_moments).
  - vm_compute. reflexivity.
  - discriminate.
  - discriminate.
  - exact bell_disjoint.
  - exact bell_has_gate.
  - discriminate.
Defined.

(** ** [create_test_circuit] *)

(** X6: for any two different qubits, [create_test_circuit] returns a newly
    allocated circuit of exactly three moments - the Hadamard gate, the
    CNOT, and both measurements together - and leaves the store otherwise
    as it was. *)
Theorem X6_create_test_circuit (h : heap) (qa qb : Qid) :
  qa <> qb ->
  create_test_circuit qa qb h
  = (Return (fresh (dom h)),
     <[fresh (dom h) :=
         [[on H [qa]]; [on CNOT [qa; qb]];
          [measure qa "q0"; measure qb "q1"]]]> h).
Proof.
  intros Hne. unfold create_test_circuit.
  erewrite bind_return by reflexivity.
  erewrite bind_return
    by (unfold Circuit_append_ops; rewrite lookup_insert_eq; reflexivity).
  erewrite bind_return
    by (unfold Circuit_append_ops; rewrite lookup_insert_eq; reflexivity).
  unfold mret, M_ret. rewrite !insert_insert_eq. do 2 f_equal.
  unfold append_ops. cbn [fold_left].
  assert (H1 : append_op [] (on H [qa]) = [] ++ [[on H [qa]]]) by reflexivity.
  rewrite H1.
  rewrite (append_op_new [] [on H [qa]] (on CNOT [qa; qb]))
    by (apply (blocks_intro _ _ (on H [qa]) qa); [left|left|left]).
  change ([] ++ [[on H [qa]]; [on CNOT [qa; qb]]])
    with ([[on H [qa]]] ++ [[on CNOT [qa; qb]]]).
  rewrite (append_op_new [[on H [qa]]] [on CNOT [qa; qb]] (measure qa "q0"))
    by (apply (blocks_intro _ _ (on CNOT [qa; qb]) qa); [left|left|left]).
  change ([[on H [qa]]] ++ [[on CNOT [qa; qb]]; [measure qa "q0"]])
    with ([[on H [qa]]] ++ [on CNOT [qa; qb]] :: [measure qa "q0"] :: []).
  rewrite (append_op_join [[on H [qa]]] [on CNOT [qa; qb]]
             [measure qa "q0"] [] (measure qb "q1")); [done| | |constructor].
  - apply (blocks_intro _ _ (on CNOT [qa; qb]) qb); [left|left|right; left].
  - unfold blocks, operates_on, shares_key. simpl.
    rewrite bool_decide_eq_false_2; [done|].
    intros Hq. apply list_elem_of_singleton in Hq. by apply Hne.
Qed.

Lemma X6_create_test_circuit_witness :
  create_test_circuit (NamedQubit "a") (NamedQubit "b") ∅
  = (Return (fresh (dom (∅ : heap))),
     <[fresh (dom (∅ : heap)) :=
         [[on H [NamedQubit "a"]];
          [on CNOT [NamedQubit "a"; NamedQubit "b"]];
          [measure (NamedQubit "a") "q0"; measure (NamedQubit "b") "q1"]]]> ∅).
Proof.
  apply (X6_create_test_circuit ∅ (NamedQubit "a") (NamedQubit "b")).
  discriminate.
Defined.

(** ** [measure_error_rate] *)

Lemma count_errors_bounds pairs exp e :
  e <= count_errors pairs exp e <= e + Z.of_nat (length pairs).
Proof.
  revert e. induction pairs as [|[a b] pairs IH]; intros e; simpl; [lia|].
  destruct (bool_decide _).
  - specialize (IH e). lia.
  - specialize (IH (e + 1)). lia.
Qed.

Lemma count_errors_none pairs exp e :
  count_errors pairs exp e = e <-> Forall (expected exp) pairs.
Proof.
  revert e. induction pairs as [|[a b] pairs IH]; intros e; simpl.
  - split; [constructor|done].
  - destruct (bool_decide _) eqn:Hd.
    + apply bool_decide_eq_true_1 in Hd. rewrite IH. split.
      * intros Hall. by constructor.
      * intros Hall. by apply Forall_cons in Hall as [_ Hall].
    + apply bool_decide_eq_false_1 in Hd. split.
      * intros Heq. pose proof (count_errors_bounds pairs exp (e + 1)). lia.
      * intros Hall. by apply Forall_cons in Hall as [Ha _].
Qed.

(** X7: [measure_error_rate] with [repetitions = 0] never returns a rate,
    whatever the simulator does, and leaves the store as it was; when the
    simulator does return results with both keys, the failure is the
    [ZeroDivisionError] of [errors / repetitions]. *)
Theorem X7_error_rate_zero_repetitions (simulator : Simulator) (c : loc)
    (expected_outcomes : list (Z * Z)) (h : heap) :
  is_raise (measure_error_rate simulator c expected_outcomes 0 h).1 = true /\
  (measure_error_rate simulator c expected_outcomes 0 h).2 = h /\
  (forall ms result a b,
     h !! c = Some ms -> simulator 0%nat ms 0 = Return result ->
     result !! "q0" = Some a -> result !! "q1" = Some b ->
     (measure_error_rate simulator c expected_outcomes 0 h).1
     = Raise ZeroDivisionError).
Proof.
  unfold measure_error_rate, mbind, M_bind, Circuit_moments, lift, raise,
    measurements.
  destruct (h !! c) as [ms|] eqn:Hc;
    [|split; [done|split; [done|intros; congruence]]].
  destruct (simulator 0%nat ms 0) as [result|e] eqn:Hsim;
    [|split; [done|split; [done|intros; congruence]]].
  destruct (result !! "q0") as [a|] eqn:Ha;
    [|split; [done|split; [done|intros; congruence]]].
  destruct (result !! "q1") as [b|] eqn:Hb;
    [|split; [done|split; [done|intros; congruence]]].
  simpl. split; [done|]. split; [done|]. done.
Qed.

Lemma inject_Z_pos (z : Z) : 0 < z -> (0 < inject_Z z)%Q.
Proof. intros Hz. unfold Qlt. simpl. lia. Qed.

(** X8: with [repetitions >= 1] and results under both keys,
    [measure_error_rate] returns [errors / repetitions] and leaves the store
    as it was, where [errors] counts the paired outcomes outside
    [expected_outcomes]: the rate is never negative, it is 0 exactly when
    every paired outcome is expected, and it is at most 1 when one of the two
    arrays holds no more than [repetitions] values. *)
Theorem X8_error_rate_value (simulator : Simulator) (c : loc)
    (expected_outcomes : list (Z * Z)) (repetitions : Z) (h : heap)
    (ms : Moments) (result : Results) (a b : Array) :
  h !! c = Some ms -> 1 <= repetitions ->
  simulator 0%nat ms repetitions = Return result ->
  result !! "q0" = Some a -> result !! "q1" = Some b ->
  exists errors,
    measure_error_rate simulator c expected_outcomes repetitions h
    = (Return (inject_Z errors / inject_Z repetitions)%Q, h) /\
    0 <= errors /\
    (errors = 0 <->
     Forall (expected expected_outcomes) (zip (flatten a) (flatten b))) /\
    (0 <= inject_Z errors / inject_Z repetitions)%Q /\
    ((length (flatten a) <= Z.to_nat repetitions)%nat \/
     (length (flatten b) <= Z.to_nat repetitions)%nat ->
     (inject_Z errors / inject_Z repetitions <= 1)%Q).
Proof.
  intros Hc Hreps Hsim Ha Hb.
  exists (count_errors (zip (flatten a) (flatten b)) expected_outcomes 0).
  pose proof (count_errors_bounds (zip (flatten a) (flatten b))
                expected_outcomes 0) as [Hlo Hhi].
  assert (Hpos : (0 < inject_Z repetitions)%Q) by (apply inject_Z_pos; lia).
  split; [|split; [done|split; [apply count_errors_none|split]]].
  - unfold measure_error_rate, mbind, M_bind, Circuit_moments, lift,
      measurements.
    rewrite Hc, Hsim, Ha, Hb.
    by rewrite (proj2 (Z.eqb_neq repetitions 0)) by lia.
  - apply Qle_shift_div_l; [done|]. rewrite Qmult_0_l.
    unfold Qle. simpl. lia.
  - intros Hlen. apply Qle_shift_div_r; [done|]. rewrite Qmult_1_l.
    rewrite <- Zle_Qle. rewrite length_zip_with in Hhi. lia.
Qed.

Lemma X8_error_rate_value_witness :
  exists errors,
    measure_error_rate ones_simulator bell_loc [(0, 0); (1, 1)] 3 bell_store.2
    = (Return (inject_Z errors / inject_Z 3)%Q, bell_store.2) /\
    0 <= errors /\
    (errors = 0 <->
     Forall (expected [(0, 0); (1, 1)])
       (zip (flatten (replicate 3 [true])) (flatten (replicate 3 [true])))) /\
    (0 <= inject_Z errors / inject_Z 3)%Q /\
    ((length (flatten (replicate 3 [true])) <= Z.to_nat 3)%nat \/
     (length (flatten (replicate 3 [true])) <= Z.to_nat 3)%nat ->
     (inject_Z errors / inject_Z 3 <= 1)%Q).
Proof.
  apply (X8_error_rate_value ones_simulator bell_loc [(0, 0); (1, 1)] 3
           bell_store.2 bell_moments
           {[ "q0" := replicate 3 [true]; "q1" := replicate 3 [true] ]}).
  - vm_compute. reflexivity.
  - lia.
  - reflexivity.
  - vm_compute. reflexivity.
  - vm_compute. reflexivity.
Defined.

(** ** [run_circuit_multiple_scales] *)

Lemma scales_loop_step (simulator : Simulator) np_other c repetitions k s rest
    acc (h : heap) :
  scales_loop simulator np_other c repetitions k (s :: rest) acc h
  = match iteration_value simulator np_other repetitions k
            (scale_noise c s h).1 (scale_noise c s h).2 with
    | Return v =>
        scales_loop simulator np_other c repetitions (S k) rest (acc ++ [v])
          (scale_noise c s h).2
    | Raise e => (Raise e, (scale_noise c s h).2)
    end.
Proof.
  cbn [scales_loop]. unfold mbind at 1, M_bind at 1.
  destruct (scale_noise c s h) as [[r|e] h1]; [|done]. cbn [fst snd].
  unfold iteration_value, mbind, M_bind, outcome_bind, Circuit_moments, lift.
  destruct (h1 !! r) as [ms|]; [|done].
  destruct (simulator k ms repetitions) as [result|e]; [|done].
  destruct (measurements result "q0") as [a|e]; [|done].
  destruct (measurements result "q1") as [b|e]; [|done].
  destruct (np_sum_equal np_other a b) as [n|e]; [|done].
  done.
Qed.

Lemma scale_noise_keeps (h : heap) c s l :
  l ∈ dom h -> (scale_noise c s h).2 !! l = h !! l.
Proof.
  intros Hl.
  destruct (scale_noise_frame h c s _ _ (surjective_pairing _)) as [Hkeep _].
  by apply Hkeep.
Qed.

Lemma scales_loop_keeps (simulator : Simulator) np_other c repetitions k scales
    acc (h : heap) l :
  l ∈ dom h ->
  (scales_loop simulator np_other c repetitions k scales acc h).2 !! l
  = h !! l.
Proof.
  revert k acc h. induction scales as [|s rest IH]; intros k acc h Hl; [done|].
  rewrite scales_loop_step.
  pose proof (scale_noise_keeps h c s l Hl) as Hkeep.
  destruct (iteration_value _ _ _ _ _ _) as [v|e]; [|done].
  rewrite IH; [done|]. apply elem_of_dom. rewrite Hkeep.
  by apply elem_of_dom.
Qed.

Lemma scales_loop_values (P : npfloat -> Prop) (simulator : Simulator)
    np_other c repetitions :
  (forall k o h1 v,
     iteration_value simulator np_other repetitions k o h1 = Return v -> P v) ->
  forall scales k acc (h : heap) vs h',
    scales_loop simulator np_other c repetitions k scales acc h
    = (Return vs, h') ->
    exists new, vs = acc ++ new /\ length new = length scales /\ Forall P new.
Proof.
  intros HP. induction scales as [|s rest IH]; intros k acc h vs h' Hrun.
  - injection Hrun as <- _. exists []. by rewrite app_nil_r.
  - rewrite scales_loop_step in Hrun.
    destruct (iteration_value _ _ _ _ _ _) as [v|e] eqn:Hv; [|done].
    destruct (IH _ _ _ _ _ Hrun) as (new & -> & Hlen & Hnew).
    exists (v :: new). rewrite <- app_assoc. split; [done|].
    split; [simpl; by rewrite Hlen|]. constructor; [|done]. by eapply HP.
Qed.

(** X9: [run_circuit_multiple_scales] changes no circuit that existed before
    the call, whether it returns or raises and whatever the simulator does;
    when it returns, it returns exactly one expectation value per scale
    factor (none for an empty list, without calling the simulator). *)
Theorem X9_run_scales_frame (simulator : Simulator) np_other (c : loc)
    (noise_scales : list Q) (repetitions : Z) (h : heap) o h' :
  run_circuit_multiple_scales simulator np_other c noise_scales repetitions h
  = (o, h') ->
  (forall l, l ∈ dom h -> h' !! l = h !! l) /\
  (forall vs, o = Return vs -> length vs = length noise_scales) /\
  (noise_scales = [] -> o = Return [] /\ h' = h).
Proof.
  unfold run_circuit_multiple_scales. intros Hrun. split; [|split].
  - intros l Hl.
    pose proof (scales_loop_keeps simulator np_other c repetitions 0
                  noise_scales [] h l Hl) as Hkeep.
    by rewrite Hrun in Hkeep.
  - intros vs ->.
    destruct (scales_loop_values (fun _ => True) simulator np_other c
                repetitions (fun _ _ _ _ _ => I) _ _ _ _ _ _ Hrun)
      as (new & -> & Hlen & _).
    done.
  - intros ->. by injection Hrun as <- <-.
Qed.

Lemma X9_run_scales_frame_witness :
  (forall l, l ∈ dom bell_store.2 ->
     (run_circuit_multiple_scales ones_simulator np_other_false bell_loc
        [1; 2]%Q 3 bell_store.2).2 !! l = bell_store.2 !! l) /\
  (forall vs,
     (run_circuit_multiple_scales ones_simulator np_other_false bell_loc
        [1; 2]%Q 3 bell_store.2).1 = Return vs ->
     length vs = length [1; 2]%Q) /\
  ([1; 2]%Q = [] ->
   (run_circuit_multiple_scales ones_simulator np_other_false bell_loc
      [1; 2]%Q 3 bell_store.2).1 = Return [] /\
   (run_circuit_multiple_scales ones_simulator np_other_false bell_loc
      [1; 2]%Q 3 bell_store.2).2 = bell_store.2).
Proof.
  apply (X9_run_scales_frame ones_simulator np_other_false bell_loc
           [1; 2]%Q 3 bell_store.2).
  apply surjective_pairing.
Defined.

Lemma scales_loop_raises (simulator : Simulator) np_other c repetitions
    (ms : Moments) scales :
  foldableb ms = false ->
  Exists (fun s => (3 # 2 <= s)%Q) scales ->
  forall k acc (h : heap), h !! c = Some ms ->
    is_raise (scales_loop simulator np_other c repetitions k scales acc h).1
    = true.
Proof.
  intros Hbad. induction 1 as [s rest Hs|s rest _ IH]; intros k acc h Hc.
  - rewrite scales_loop_step.
    pose proof (scale_noise_code_run h c ms s Hc) as Hrun.
    rewrite scale_ge_not_one, scale_ge_folds, Hbad in Hrun by done.
    destruct Hrun as [h1 Hrun]. by rewrite Hrun.
  - rewrite scales_loop_step.
    destruct (iteration_value _ _ _ _ _ _) as [v|e]; [|done].
    apply IH. rewrite scale_noise_keeps; [done|]. by apply elem_of_dom.
Qed.

(** X10: on a circuit in which some measurement-free moment holds an
    operation without inverse (a noise channel),
    [run_circuit_multiple_scales] with any scale factor of 1.5 or more in the
    list never returns expectation values: it ends in an exception, whatever
    the simulator answers for the scale factors before. *)
Theorem X10_run_scales_unfoldable (simulator : Simulator) np_other (c : loc)
    (ms : Moments) (noise_scales : list Q) (repetitions : Z) (h : heap) :
  h !! c = Some ms -> foldableb ms = false ->
  Exists (fun s => (3 # 2 <= s)%Q) noise_scales ->
  is_raise (run_circuit_multiple_scales simulator np_other c noise_scales
              repetitions h).1 = true.
Proof.
  intros Hc Hbad Hs. unfold run_circuit_multiple_scales.
  by apply (scales_loop_raises simulator np_other c repetitions ms).
Qed.

Lemma X10_run_scales_unfoldable_witness :
  is_raise (run_circuit_multiple_scales ones_simulator np_other_false
              noisy_loc [1; 3 # 2; 2; 5 # 2; 3]%Q 1000 noisy_store.2).1
  = true.
Proof.
  apply (X10_run_scales_unfoldable ones_simulator np_other_false noisy_loc
           [[on H [q0]]; [on (depolarize (1 # 20)) [q0]];
            [on CNOT [q0; q1]];
            [on (depolarize (1 # 20)) [q0]; on (depolarize (1 # 20)) [q1]];
            [measure q0 "q0"; measure q1 "q1"]]).
  - vm_compute. reflexivity.
  - reflexivity.
  - apply Exists_cons_tl, Exists_cons_hd. discriminate.
Defined.

Lemma iteration_value_zero (simulator : Simulator) np_other k o (h1 : heap) v :
  iteration_value simulator np_other 0 k o h1 = Return v ->
  v = NaN \/ v = Infinity.
Proof.
  unfold iteration_value, mbind, outcome_bind.
  destruct o as [r|e]; [|done].
  destruct (h1 !! r) as [ms|]; [|done].
  destruct (simulator k ms 0) as [result|e]; [|done].
  destruct (measurements result "q0") as [a|e]; [|done].
  destruct (measurements result "q1") as [b|e]; [|done].
  destruct (np_sum_equal np_other a b) as [n|e]; [|done].
  intros [= <-]. unfold np_divide. simpl. destruct (Nat.eqb n 0); auto.
Qed.

(** X11: with [repetitions = 0], the division of
    [run_circuit_multiple_scales] is numpy's and raises nothing: when the
    function returns, every expectation value is [nan] or [inf], never a
    number. *)
Theorem X11_run_scales_zero_repetitions (simulator : Simulator) np_other
    (c : loc) (noise_scales : list Q) (h : heap) vs h' :
  run_circuit_multiple_scales simulator np_other c noise_scales 0 h
  = (Return vs, h') ->
  Forall (fun v => v = NaN \/ v = Infinity) vs.
Proof.
  unfold run_circuit_multiple_scales. intros Hrun.
  destruct (scales_loop_values (fun v => v = NaN \/ v = Infinity) simulator
              np_other c 0 (iteration_value_zero simulator np_other)
              _ _ _ _ _ _ Hrun) as (new & -> & _ & Hnew).
  done.
Qed.

Lemma X11_run_scales_zero_repetitions_witness :
  Forall (fun v => v = NaN \/ v = Infinity) [NaN; NaN].
Proof.
  apply (X11_run_scales_zero_repetitions ones_simulator np_other_false
           bell_loc [1; 2]%Q bell_store.2 [NaN; NaN]
           (run_circuit_multiple_scales ones_simulator np_other_false
              bell_loc [1; 2]%Q 0 bell_store.2).2).
  vm_compute. reflexivity.
Defined.

Lemma one_bit_shapes (a b : Array) :
  length a = length b ->
  Forall (fun row => length row = 1%nat) a ->
  Forall (fun row => length row = 1%nat) b ->
  map length a = map length b /\
  length (concat (zip_with (zip_with Bool.eqb) a b)) = length a.
Proof.
  intros Hlen Ha. revert b Hlen.
  induction Ha as [|ra a Hra _ IH]; intros [|rb b] Hlen Hb;
    try discriminate Hlen; [done|].
  apply Forall_cons in Hb as [Hrb Hb]. injection Hlen as Hlen.
  destruct (IH b Hlen Hb) as [Hmap Hcat]. simpl. split.
  - by rewrite Hra, Hrb, Hmap.
  - rewrite length_app, Hcat, length_zip_with, Hra, Hrb. done.
Qed.

Lemma count_equal_le (a b : Array) :
  (count_equal a b <= length (concat (zip_with (zip_with Bool.eqb) a b)))%nat.
Proof. unfold count_equal. apply length_filter. Qed.

Lemma iteration_value_unit (simulator : Simulator) np_other repetitions k o
    (h1 : heap) v :
  1 <= repetitions -> one_bit_rows simulator repetitions ->
  iteration_value simulator np_other repetitions k o h1 = Return v ->
  exists q, v = Finite q /\ (0 <= q)%Q /\ (q <= 1)%Q.
Proof.
  intros Hreps Hrows. unfold iteration_value, mbind, outcome_bind.
  destruct o as [r|e]; [|done].
  destruct (h1 !! r) as [ms|]; [|done].
  destruct (simulator k ms repetitions) as [result|e] eqn:Hsim; [|done].
  destruct (Hrows k ms result Hsim) as (a & b & Ha & Hb & La & Lb & Wa & Wb).
  unfold measurements. rewrite Ha, Hb.
  destruct (one_bit_shapes a b) as [Hshape Hcat]; [congruence|done..|].
  unfold np_sum_equal. rewrite bool_decide_eq_true_2 by done.
  intros [= <-]. unfold np_divide.
  rewrite (proj2 (Z.eqb_neq repetitions 0)) by lia.
  pose proof (count_equal_le a b) as Hle. rewrite Hcat, La in Hle.
  assert (Hpos : (0 < inject_Z repetitions)%Q) by (apply inject_Z_pos; lia).
  eexists. split; [reflexivity|]. split.
  - apply Qle_shift_div_l; [done|]. rewrite Qmult_0_l.
    unfold Qle. simpl. lia.
  - apply Qle_shift_div_r; [done|]. rewrite Qmult_1_l.
    rewrite <- Zle_Qle. lia.
Qed.

(** X12: with [repetitions >= 1] and a simulator that answers with
    [repetitions] one-bit rows under each of the keys [q0] and [q1], every
    expectation value that [run_circuit_multiple_scales] returns is a
    number between 0 and 1. *)
Theorem X12_run_scales_unit_interval (simulator : Simulator) np_other
    (c : loc) (noise_scales : list Q) (repetitions : Z) (h : heap) vs h' :
  1 <= repetitions -> one_bit_rows simulator repetitions ->
  run_circuit_multiple_scales simulator np_other c noise_scales repetitions h
  = (Return vs, h') ->
  Forall (fun v => exists q, v = Finite q /\ (0 <= q)%Q /\ (q <= 1)%Q) vs.
Proof.
  unfold run_circuit_multiple_scales. intros Hreps Hrows Hrun.
  destruct (scales_loop_values
              (fun v => exists q, v = Finite q /\ (0 <= q)%Q /\ (q <= 1)%Q)
              simulator np_other c repetitions
              (fun k o h1 v =>
                 iteration_value_unit simulator np_other repetitions k o h1 v
                   Hreps Hrows)
              _ _ _ _ _ _ Hrun) as (new & -> & _ & Hnew).
  done.
Qed.

Lemma ones_simulator_rows (repetitions : Z) :
  one_bit_rows ones_simulator repetitions.
Proof.
  intros k ms result [= <-].
  exists (replicate (Z.to_nat repetitions) [true]),
         (replicate (Z.to_nat repetitions) [true]).
  split; [done|]. split; [done|].
  rewrite !length_replicate. split; [done|]. split; [done|].
  split; apply Forall_replicate; done.
Qed.

Lemma X12_run_scales_unit_interval_witness :
  Forall (fun v => exists q, v = Finite q /\ (0 <= q)%Q /\ (q <= 1)%Q)
    [Finite (inject_Z 3 / inject_Z 3)%Q; Finite (inject_Z 3 / inject_Z 3)%Q].
Proof.
  apply (X12_run_scales_unit_interval ones_simulator np_other_false
           bell_loc [1; 2]%Q 3 bell_store.2
           [Finite (inject_Z 3 / inject_Z 3)%Q;
            Finite (inject_Z 3 / inject_Z 3)%Q]
           (run_circuit_multiple_scales ones_simulator np_other_false
              bell_loc [1; 2]%Q 3 bell_store.2).2).
  - lia.
  - apply ones_simulator_rows.
  - vm_compute. reflexivity.
Defined.

(** ** [zero_noise_extrapolation] on arbitrary data *)

(** X13: for scale factors holding two different values and as many
    expectation values (on a line or not), [zero_noise_extrapolation]
    returns the intercept of a line whose sum of squared vertical residuals
    is minimal among all lines. *)
Theorem X13_zne_least_squares (xs ys : list Q) :
  two_distinct xs -> length xs = length ys ->
  exists m0 b0,
    polyfit1 xs ys = Return (m0, b0) /\
    zero_noise_extrapolation xs ys = Return b0 /\
    forall m b, (sse xs ys m0 b0 <= sse xs ys m b)%Q.
Proof.
  intros Hdist Hlen. pose proof (fit_det_distinct xs Hdist) as Hd.
  destruct (polyfit1 xs ys) as [[m0 b0]|e] eqn:Hfit;
    [|by rewrite polyfit1_full_rank in Hfit].
  exists m0, b0. split; [done|]. split.
  - unfold zero_noise_extrapolation. by rewrite Hfit.
  - intros m b. by apply polyfit1_least_squares.
Qed.

Lemma X13_zne_least_squares_witness :
  exists m0 b0,
    polyfit1 [1; 2; 3]%Q [1; 3; 2]%Q = Return (m0, b0) /\
    zero_noise_extrapolation [1; 2; 3]%Q [1; 3; 2]%Q = Return b0 /\
    forall m b, (sse [1; 2; 3] [1; 3; 2] m0 b0 <= sse [1; 2; 3] [1; 3; 2] m b)%Q.
Proof.
  apply (X13_zne_least_squares [1; 2; 3]%Q [1; 3; 2]%Q).
  - exists 0%nat, 1%nat, 1%Q, 2%Q.
    split; [reflexivity|]. split; [reflexivity|]. discriminate.
  - reflexivity.
Defined.

Lemma dot_self_pos (xs : list Q) :
  xs <> [] -> Forall (fun x => 0 < x)%Q xs -> (0 < dot xs xs)%Q.
Proof.
  intros Hne Hpos. destruct Hpos as [|x xs Hx Hxs]; [done|].
  unfold dot. cbn [zip_with sumQ fold_right].
  apply (Qlt_le_trans _ (x * x + 0)%Q).
  - rewrite Qplus_0_r.
    assert (H0 : (0 == 0 * x)%Q) by ring. rewrite H0.
    by apply Qmult_lt_compat_r.
  - apply Qplus_le_compat; [apply Qle_refl|].
    apply sumQ_nonneg. clear. induction xs as [|y ys IH]; [constructor|].
    simpl. constructor; [apply Qsquare_nonneg|exact IH].
Qed.

(** X14: [zero_noise_extrapolation] returns a value for every non-empty list
    of positive scale factors with as many expectation values: neither a
    repeated scale factor nor a single one makes it fail. *)
Theorem X14_zne_returns (xs ys : list Q) :
  xs <> [] -> length xs = length ys -> Forall (fun x => 0 < x)%Q xs ->
  exists v, zero_noise_extrapolation xs ys = Return v.
Proof.
  intros Hne Hlen Hpos. unfold zero_noise_extrapolation, polyfit1.
  rewrite bool_decide_eq_false_2 by (by destruct xs).
  rewrite bool_decide_eq_true_2 by done. simpl.
  destruct (Qeq_bool _ 0); [|by eexists].
  destruct (Qeq_bool (dot xs xs) 0) eqn:Hz; [|by eexists].
  apply Qeq_bool_iff in Hz. pose proof (dot_self_pos xs Hne Hpos) as Hp.
  rewrite Hz in Hp. by apply Qlt_irrefl in Hp.
Qed.

Lemma X14_zne_returns_witness :
  exists v, zero_noise_extrapolation [1; 1; 2]%Q [1; 2; 3]%Q = Return v.
Proof.
  apply (X14_zne_returns [1; 1; 2]%Q [1; 2; 3]%Q).
  - discriminate.
  - reflexivity.
  - repeat constructor.
Defined.

(** X15: with two different scale factors the estimate is the value at 0 of
    the line through the two points, [(y1 x2 - y2 x1) / (x2 - x1)]. *)
Theorem X15_zne_two_points (x1 x2 y1 y2 : Q) :
  ~ (x1 == x2)%Q ->
  exists v, zero_noise_extrapolation [x1; x2] [y1; y2] = Return v /\
            (v == (y1 * x2 - y2 * x1) / (x2 - x1))%Q.
Proof.
  intros Hne.
  assert (Hd : ~ (x2 - x1 == 0)%Q).
  { intros Hz. apply Hne. assert (Hx : (x2 == (x2 - x1) + x1)%Q) by ring.
    rewrite Hx, Hz. ring. }
  apply (zne_exact_on_line [x1; x2] [y1; y2] ((y2 - y1) / (x2 - x1))
           ((y1 * x2 - y2 * x1) / (x2 - x1))).
  - exists 0%nat, 1%nat, x1, x2. by split; [|split].
  - constructor; [by field|]. constructor; [by field|]. constructor.
Qed.

Lemma X15_zne_two_points_witness :
  exists v, zero_noise_extrapolation [1; 2]%Q [(9 # 10); (8 # 10)]%Q = Return v /\
            (v == ((9 # 10) * 2 - (8 # 10) * 1) / (2 - 1))%Q.
Proof.
  apply (X15_zne_two_points 1 2 (9 # 10) (8 # 10)). discriminate.
Defined.

Lemma affine_sums (xs ys : list Q) (a c : Q) :
  length xs = length ys ->
  (sumQ (map (fun y => a * y + c) ys)
   == a * sumQ ys + inject_Z (Z.of_nat (length xs)) * c)%Q /\
  (dot xs (map (fun y => a * y + c) ys) == a * dot xs ys + c * sumQ xs)%Q.
Proof.
  unfold dot. revert ys.
  induction xs as [|x xs IH]; intros [|y ys] Hlen; try discriminate Hlen.
  - simpl. split; ring.
  - injection Hlen as Hlen. destruct (IH ys Hlen) as [IH1 IH2].
    cbn [map sumQ fold_right zip_with length].
    fold (sumQ xs). fold (sumQ ys).
    fold (sumQ (map (fun y => a * y + c) ys))%Q.
    fold (sumQ (zip_with Qmult xs ys)).
    fold (sumQ (zip_with Qmult xs (map (fun y => a * y + c) ys)))%Q.
    rewrite Nat2Z.inj_succ. unfold Z.succ. rewrite inject_Z_plus.
    rewrite IH1, IH2. split; ring.
Qed.

(** X16: the estimate follows an affine change of the observable: for scale
    factors holding two different values, extrapolating the values
    [a * y + c] gives [a * v + c], where [v] is the estimate for the values
    [y] (so the conventions [[0, 1]] and [[-1, 1]] for an expectation value
    give matching estimates). *)
Theorem X16_zne_affine (xs ys : list Q) (a c : Q) :
  two_distinct xs -> length xs = length ys ->
  exists v w,
    zero_noise_extrapolation xs ys = Return v /\
    zero_noise_extrapolation xs (map (fun y => a * y + c)%Q ys) = Return w /\
    (w == a * v + c)%Q.
Proof.
  intros Hdist Hlen. pose proof (fit_det_distinct xs Hdist) as Hd.
  destruct (affine_sums xs ys a c Hlen) as [Hs Hx].
  unfold zero_noise_extrapolation.
  rewrite !polyfit1_full_rank by (done || by rewrite length_map).
  eexists _, _. split; [reflexivity|]. split; [reflexivity|]. simpl.
  rewrite Hs, Hx. revert Hd. unfold fit_det.
  generalize (inject_Z (Z.of_nat (length xs))) (dot xs xs) (dot xs ys)
    (sumQ xs) (sumQ ys).
  intros n sxx sxy sx sy Hd. by field.
Qed.

Lemma X16_zne_affine_witness :
  exists v w,
    zero_noise_extrapolation [1; 2; 3]%Q [1; 3; 2]%Q = Return v /\
    zero_noise_extrapolation [1; 2; 3]%Q
      (map (fun y => 2 * y + - 1)%Q [1; 3; 2]%Q) = Return w /\
    (w == 2 * v + - 1)%Q.
Proof.
  apply (X16_zne_affine [1; 2; 3]%Q [1; 3; 2]%Q 2 (- 1)).
  - exists 0%nat, 1%nat, 1%Q, 2%Q.
    split; [reflexivity|]. split; [reflexivity|]. discriminate.
  - reflexivity.
Defined.

(** ** [add_two_bits] on arbitrary integers *)

Lemma full_circuit_test (a b : Z) :
  full_circuit a b
  = full_circuit (Z.b2z (a =? 1)) (Z.b2z (b =? 1)).
Proof.
  unfold full_circuit.
  by destruct (Z.eqb_spec a 1) as [->|?], (Z.eqb_spec b 1) as [->|?].
Qed.

(** X17: [add_two_bits] does not validate its inputs: an argument other than
    1 (2, -1, ...) is treated as 0.  For all integers the result is the sum
    bit and the carry bit of the two tests [bit_a == 1], [bit_b == 1],
    whatever the simulator's random source draws. *)
Theorem X17_add_two_bits_any (a b : Z) (rng : nat -> Q) :
  add_two_bits a b rng
  = Return (Z.b2z (xorb (a =? 1) (b =? 1)), Z.b2z ((a =? 1) && (b =? 1))).
Proof.
  unfold add_two_bits. rewrite full_circuit_test.
  destruct (a =? 1), (b =? 1); vm_compute; reflexivity.
Qed.

(** X18: what [main] prints agrees: for input bits in {0, 1} the quantum
    result [carry_bit * 2 + sum_bit] equals the classical result
    [a + b]. *)
Theorem X18_adder_arithmetic (a b : Z) (rng : nat -> Q) :
  is_bit a -> is_bit b ->
  exists sum_bit carry_bit,
    add_two_bits a b rng = Return (sum_bit, carry_bit) /\
    carry_bit * 2 + sum_bit = a + b.
Proof.
  intros [-> | ->] [-> | ->]; eexists _, _;
    (split; [vm_compute; reflexivity|reflexivity]).
Qed.

Lemma X18_adder_arithmetic_witness :
  exists sum_bit carry_bit,
    add_two_bits 1 1 (fun _ => 1 # 3)%Q = Return (sum_bit, carry_bit) /\
    carry_bit * 2 + sum_bit = 1 + 1.
Proof.
  apply (X18_adder_arithmetic 1 1 (fun _ => 1 # 3)%Q); right; reflexivity.
Defined.

(** ** The BB84 loop: the two extremes and the discarded rounds *)

Lemma sifted_cons_shift (rounds : list nat) bit ba bb bits bases bobs :
  sifted (map S rounds) (bit :: bits) (ba :: bases) (bb :: bobs)
  = sifted rounds bits bases bobs.
Proof.
  unfold sifted. induction rounds as [|i rounds IH]; [done|].
  simpl. by rewrite IH.
Qed.

Lemma sifted_same_bases (bits bases : list Z) :
  length bits = length bases ->
  sifted (seq 0 (length bits)) bits bases bases = bits.
Proof.
  revert bases. induction bits as [|bit bits IH]; intros [|ba bases] Hlen;
    try discriminate Hlen; [done|].
  injection Hlen as Hlen. cbn [length seq].
  rewrite <- seq_shift. unfold sifted at 1. cbn [flat_map].
  fold (sifted (map S (seq 0 (length bits))) (bit :: bits) (ba :: bases)
          (ba :: bases)).
  rewrite sifted_cons_shift, IH by done. simpl. by rewrite Z.eqb_refl.
Qed.

Lemma sifted_other_bases (bits bases bobs : list Z) :
  Forall2 (fun ba bb => ba <> bb) bases bobs ->
  length bits = length bases ->
  sifted (seq 0 (length bits)) bits bases bobs = [].
Proof.
  intros Hne. revert bits.
  induction Hne as [|ba bb bases bobs Hab _ IH]; intros [|bit bits] Hlen;
    try discriminate Hlen; [done|].
  injection Hlen as Hlen. cbn [length seq].
  rewrite <- seq_shift. unfold sifted at 1. cbn [flat_map].
  fold (sifted (map S (seq 0 (length bits))) (bit :: bits) (ba :: bases)
          (bb :: bobs)).
  rewrite sifted_cons_shift, IH by done. simpl.
  by rewrite (proj2 (Z.eqb_neq ba bb)).
Qed.

Lemma bb84_run (alice_bits alice_bases bob_bases : list Z) rngs :
  length alice_bits = num_bits -> length alice_bases = num_bits ->
  length bob_bases = num_bits ->
  Forall is_bit alice_bits -> Forall is_bit alice_bases ->
  Forall is_bit bob_bases ->
  bb84 alice_bits alice_bases bob_bases rngs
  = Return (sifted (seq 0 num_bits) alice_bits alice_bases bob_bases).
Proof.
  intros L1 L2 L3 Hbits Hab Hbb.
  unfold bb84. rewrite bb84_loop_sifted; [done..|].
  apply Forall_forall. intros i Hi. apply elem_of_seq in Hi. lia.
Qed.

(** X19: the two extremes of the BB84 loop.  When Bob picks Alice's basis
    in every round the key is the whole of Alice's bit string; when he picks
    the other basis in every round the key is empty.  Both hold for every
    draw of the simulators' random sources. *)
Theorem X19_bb84_extremes (alice_bits alice_bases bob_bases : list Z)
    (rngs : nat -> nat -> Q) :
  length alice_bits = num_bits -> length alice_bases = num_bits ->
  length bob_bases = num_bits ->
  Forall is_bit alice_bits -> Forall is_bit alice_bases ->
  Forall is_bit bob_bases ->
  (bob_bases = alice_bases ->
   bb84 alice_bits alice_bases bob_bases rngs = Return alice_bits) /\
  (Forall2 (fun ba bb => ba <> bb) alice_bases bob_bases ->
   bb84 alice_bits alice_bases bob_bases rngs = Return []).
Proof.
  intros L1 L2 L3 Hbits Hab Hbb. rewrite bb84_run by done. split.
  - intros ->. rewrite <- L1. by rewrite sifted_same_bases by congruence.
  - intros Hne. rewrite <- L1.
    by rewrite sifted_other_bases by (done || congruence).
Qed.

Lemma X19_bb84_extremes_witness :
  (sample_alice_bases = sample_alice_bases ->
   bb84 sample_alice_bits sample_alice_bases sample_alice_bases sample_rngs
   = Return sample_alice_bits) /\
  (Forall2 (fun ba bb => ba <> bb) sample_alice_bases sample_alice_bases ->
   bb84 sample_alice_bits sample_alice_bases sample_alice_bases sample_rngs
   = Return []).
Proof.
  apply (X19_bb84_extremes sample_alice_bits sample_alice_bases
           sample_alice_bases sample_rngs); try reflexivity;
    repeat (apply Forall_cons_2 || apply Forall_nil_2);
    first [left; reflexivity | right; reflexivity].
Defined.

(** X20: a round in which the two bases differ carries no information: the
    outcome distribution of its circuit is uniform, 1/2 on each bit,
    whichever bit Alice sent. *)
Theorem X20_bb84_other_basis (bit alice_basis bob_basis : Z) :
  is_bit bit -> is_bit alice_basis -> is_bit bob_basis ->
  alice_basis <> bob_basis ->
  exact_distribution (round_circuit bit alice_basis bob_basis)
  = Return {[ [false] := (1 # 2)%Q; [true] := (1 # 2)%Q ]}.
Proof.
  intros [-> | ->] [-> | ->] [-> | ->] Hne; try done;
    vm_compute; reflexivity.
Qed.

Lemma X20_bb84_other_basis_witness :
  exact_distribution (round_circuit 1 0 1)
  = Return {[ [false] := (1 # 2)%Q; [true] := (1 # 2)%Q ]}.
Proof.
  apply (X20_bb84_other_basis 1 0 1);
    first [by left | by right | discriminate].
Defined.

(** ** The ideal Bell circuit has error rate 0 *)

Lemma bell_repetition (steps : list step) (rng : nat -> Q) (i : nat) :
  compile bell_moments = Return steps ->
  exists b,
    run_steps steps rng (initialize 2) i ∅
    = Return ({[ "q0" := [b]; "q1" := [b] ]}, S (S i)).
Proof.
  intros Hc. vm_compute in Hc. injection Hc as <-.
  cbn [run_steps].
  match goal with
  | |- context [sample 0 (rng i) ?r] => set (rho := r)
  end.
  change (sample 0 (rng i) rho)
    with (@Return (bool * Matrix)
            (Qle_bool (1 # 2) (rng i),
             collapse 0 (Qle_bool (1 # 2) (rng i))
               (if Qle_bool (1 # 2) (rng i) then (1 # 2)%Q else (1 # 2)%Q)
               rho)).
  destruct (Qle_bool (1 # 2) (rng i)).
  - exists true. vm_compute. reflexivity.
  - exists false. vm_compute. reflexivity.
Qed.

Lemma collect_lookup (res : Results) (rec : Record) key :
  collect res rec !! key
  = match rec !! key with
    | Some t => Some (default [] (res !! key) ++ [t])
    | None => res !! key
    end.
Proof.
  unfold collect. rewrite lookup_merge.
  by destruct (res !! key), (rec !! key).
Qed.

Lemma bell_runs (steps : list step) (rng : nat -> Q) :
  compile bell_moments = Return steps ->
  forall n i (res : Results),
    res !! "q0" = res !! "q1" ->
    exists res',
      repeat_runs n steps 2 rng i res = Return res' /\
      res' !! "q0" = res' !! "q1" /\
      (n <> 0%nat \/ is_Some (res !! "q0") -> is_Some (res' !! "q0")).
Proof.
  intros Hc. induction n as [|n IH]; intros i res Hres.
  - exists res. split; [done|]. split; [done|]. by intros [?|?].
  - destruct (bell_repetition steps rng i Hc) as [b Hb].
    cbn [repeat_runs]. rewrite Hb. cbn [mbind outcome_bind].
    set (rec := {[ "q0" := [b]; "q1" := [b] ]} : Record).
    assert (H0 : rec !! "q0" = Some [b]) by (by destruct b).
    assert (H1 : rec !! "q1" = Some [b]) by (by destruct b).
    destruct (IH (S (S i)) (collect res rec)) as (res' & Hrun & Heq & Hsome).
    { by rewrite !collect_lookup, H0, H1, Hres. }
    exists res'. split; [done|]. split; [done|]. intros _.
    apply Hsome. right. rewrite collect_lookup, H0. by eexists.
Qed.

(** X21: on the store where [c] holds the circuit of [create_test_circuit],
    with the simulation engine driven by any random source and any
    [repetitions >= 1], [measure_error_rate] with the expected outcomes
    (0,0) and (1,1) returns the rate 0 and leaves the store as it was: the
    two qubits of the ideal circuit always read the same bit. *)
Theorem X21_ideal_error_rate (rngs : nat -> nat -> Q) (c : loc)
    (repetitions : Z) (h : heap) :
  h !! c = Some bell_moments -> 1 <= repetitions ->
  exists rate,
    measure_error_rate (engine_simulator rngs) c [(0, 0); (1, 1)] repetitions h
    = (Return rate, h) /\ (rate == 0)%Q.
Proof.
  intros Hc Hreps.
  assert (Hsteps : exists steps, compile bell_moments = Return steps)
    by (vm_compute; eauto).
  destruct Hsteps as [steps Hsteps].
  assert (Hempty : (∅ : Results) !! "q0" = (∅ : Results) !! "q1") by done.
  destruct (bell_runs steps (rngs 0%nat) Hsteps (Z.to_nat repetitions) 0%nat ∅
              Hempty) as (res & Hrun & Heq & Hsome).
  destruct Hsome as [a Ha]; [left; lia|].
  assert (Hsim : engine_simulator rngs 0%nat bell_moments repetitions
                 = Return res).
  { unfold engine_simulator, run.
    rewrite (proj2 (Z.ltb_ge repetitions 1)) by lia.
    vm_compute in Hsteps. injection Hsteps as <-. exact Hrun. }
  assert (Hb : res !! "q1" = Some a) by (by rewrite <- Heq).
  assert (He : count_errors (zip (flatten a) (flatten a)) [(0, 0); (1, 1)] 0
               = 0).
  { apply count_errors_none. clear.
    induction (flatten a) as [|x l IH]; [constructor|].
    constructor; [|done]. unfold expected. destruct x; set_solver. }
  exists (inject_Z 0 / inject_Z repetitions)%Q. split.
  - unfold measure_error_rate, mbind, M_bind, Circuit_moments, lift,
      measurements.
    rewrite Hc, Hsim, Ha, Hb, He.
    by rewrite (proj2 (Z.eqb_neq repetitions 0)) by lia.
  - unfold Qdiv. by rewrite Qmult_0_l.
Qed.

Lemma X21_ideal_error_rate_witness :
  exists rate,
    measure_error_rate (engine_simulator (fun _ _ => 3 # 4)) bell_loc
      [(0, 0); (1, 1)] 5 bell_store.2
    = (Return rate, bell_store.2) /\ (rate == 0)%Q.
Proof.
  apply (X21_ideal_error_rate (fun _ _ => 3 # 4) bell_loc 5 bell_store.2).
  - vm_compute. reflexivity.
  - lia.
Defined.
